(** * Consistent-hashing ring: a shallow embedding of [main.py]

    The class [ConsistentHashRing] is modelled as a record holding the three
    configuration attributes and the three mutable containers.  Python
    integers are [Z] (ring positions) or [nat] (lengths, indices, counts),
    [dict] is stdpp's [gmap], [set] is [gset], [list] is [list].  The two
    mutators return the state they leave behind, also when they raise; the
    queries read the state only and are functions to a [result].

    [default_hash] (SHA-1 truncated to 8 bytes) is the default value of the
    [hash_func] argument; the class only ever calls [self.hash], which is a
    field of the record here. *)

From stdpp Require Import gmap strings list sorting pretty.
From Stdlib Require Import QArith.

Local Open Scope nat_scope.

(** ** Exceptions and outcomes *)

Inductive exn : Type :=
  | ValueError (msg : string)
  | RuntimeError (msg : string)
  | KeyError
  | IndexError
  | AssertionError.

(** What a read-only method call does: return, raise, or never return. *)
Inductive result (A : Type) : Type :=
  | Return (a : A)
  | Raise (e : exn)
  | Loops.
Arguments Return {A} a.
Arguments Raise {A} e.
Arguments Loops {A}.

#[global] Instance result_bind : MBind result := λ A B k m,
  match m with
  | Return a => k a
  | Raise e => Raise e
  | Loops => Loops
  end.

(** ** The ring *)

Record ring : Type := Ring {
  replicas_per_node : nat;
  hash : string → Z;
  replication_factor : nat;
  positions : list Z;
  vnode_to_node : gmap Z string;
  node_to_vnodes : gmap string (list Z)
}.

(** What a mutating method call does; the ring is the state it leaves. *)
Inductive outcome : Type :=
  | Done (r : ring)
  | Failed (e : exn) (r : ring)
  | Hangs.

(** The spec's names for the three conditions the class raises. *)
Definition DuplicateNode (node_id : string) : exn :=
  ValueError ("Node " +:+ node_id +:+ " already exists")%string.
Definition NodeNotFound (node_id : string) : exn :=
  ValueError ("Node " +:+ node_id +:+ " not found")%string.
Definition EmptyRing : exn := RuntimeError "Ring is empty".

(** [__init__]: the two assertions, then three empty containers. *)
Definition new_ring (rpn : nat) (hash_func : string → Z) (rf : nat) : result ring :=
  if negb (0 <? rpn) then Raise AssertionError
  else if negb (0 <? rf) then Raise AssertionError
  else Return (Ring rpn hash_func rf [] ∅ ∅).

(** ** The [bisect] module

    [bisect_left], [bisect_right] and [insort] are the binary searches of
    the Python library; each loop iteration shrinks [hi - lo], so [hi - lo]
    iterations are always enough and the iteration bound is never hit. *)

Fixpoint bisect_left_loop (n : nat) (a : list Z) (x : Z) (lo hi : nat) : nat :=
  match n with
  | O => lo
  | S n' =>
      if decide (lo < hi) then
        let mid := (lo + hi) `div` 2 in
        if decide (a !!! mid < x)%Z
        then bisect_left_loop n' a x (mid + 1) hi
        else bisect_left_loop n' a x lo mid
      else lo
  end.

Definition bisect_left (a : list Z) (x : Z) : nat :=
  bisect_left_loop (length a) a x 0 (length a).

Fixpoint bisect_right_loop (n : nat) (a : list Z) (x : Z) (lo hi : nat) : nat :=
  match n with
  | O => lo
  | S n' =>
      if decide (lo < hi) then
        let mid := (lo + hi) `div` 2 in
        if decide (x < a !!! mid)%Z
        then bisect_right_loop n' a x lo mid
        else bisect_right_loop n' a x (mid + 1) hi
      else lo
  end.

Definition bisect_right (a : list Z) (x : Z) : nat :=
  bisect_right_loop (length a) a x 0 (length a).

(** [a.insert(i, x)]; an index past the end appends. *)
Definition list_insert_at (i : nat) (x : Z) (a : list Z) : list Z :=
  take i a ++ x :: drop i a.

Definition insort (a : list Z) (x : Z) : list Z :=
  list_insert_at (bisect_right a x) x a.

(** ** Key placement *)

Definition _find_vnode_index (key_hash : Z) (r : ring) : result nat :=
  if decide (positions r = []) then Raise EmptyRing
  else
    let idx := bisect_left (positions r) key_hash in
    if decide (idx = length (positions r)) then Return 0 else Return idx.

(** The loop of [get_nodes_for_key].  [chosen] and [seen] grow together, and
    the test can only turn false right after a node was added; a run that
    returns makes at most [len(positions)] iterations per node it adds, hence
    at most [len(positions) * len(node_to_vnodes)] in all.  [n] counts the
    iterations left: running out of them means the loop never exits
    ([walk_bound_adequate] below). *)
Fixpoint walk (n : nat) (r : ring) (idx : nat)
    (chosen : list string) (seen : gset string) : result (list string) :=
  if decide (length chosen < replication_factor r
             ∧ size seen < size (node_to_vnodes r)) then
    match n with
    | O => Loops
    | S n' =>
        match positions r !! idx with
        | None => Raise IndexError
        | Some pos =>
            match vnode_to_node r !! pos with
            | None => Raise KeyError
            | Some node_id =>
                if decide (node_id ∈ seen)
                then walk n' r ((idx + 1) `mod` length (positions r)) chosen seen
                else walk n' r ((idx + 1) `mod` length (positions r))
                       (chosen ++ [node_id]) ({[node_id]} ∪ seen)
            end
        end
    end
  else Return chosen.

Definition get_nodes_for_key (key : string) (r : ring) : result (list string) :=
  if decide (positions r = []) then Raise EmptyRing
  else
    let key_hash := hash r key in
    idx ← _find_vnode_index key_hash r;
    walk (length (positions r) * size (node_to_vnodes r)) r idx [] ∅.

Definition get_primary_node (key : string) (r : ring) : result string :=
  nodes ← get_nodes_for_key key r;
  match nodes !! 0 with
  | Some node => Return node
  | None => Raise IndexError
  end.

(** ** Node management *)

Definition MASK64 : Z := Z.shiftl 1 64 - 1.

(** The f-string [f"{node_id}#{replica_idx}"]. *)
Definition vnode_key (node_id : string) (replica_idx : nat) : string :=
  (node_id +:+ "#" +:+ pretty replica_idx)%string.

(** [(pos + 1) & ((1 << 64) - 1)] *)
Definition next_pos (pos : Z) : Z := Z.land (pos + 1) MASK64.

(** The collision loop [while pos in self.vnode_to_node].  A dictionary of
    [size m] keys cannot hold [S (size m)] different candidates, so when that
    many candidates in a row are taken the walk has wrapped around a full
    address space and the loop never exits: [None] ([probe_bound_adequate]
    below). *)
Fixpoint probe (n : nat) (m : gmap Z string) (pos : Z) : option Z :=
  match n with
  | O => None
  | S n' =>
      match m !! pos with
      | Some _ => probe n' m (next_pos pos)
      | None => Some pos
      end
  end.

(** The [for replica_idx in range(...)] loop over the three locals it
    updates: [self.positions], [self.vnode_to_node] and [vnodes]. *)
Fixpoint add_node_loop (h : string → Z) (node_id : string) (idxs : list nat)
    (ps : list Z) (v2n : gmap Z string) (vnodes : list Z)
    : option (list Z * gmap Z string * list Z) :=
  match idxs with
  | [] => Some (ps, v2n, vnodes)
  | replica_idx :: rest =>
      let key := vnode_key node_id replica_idx in
      match probe (S (size v2n)) v2n (h key) with
      | None => None
      | Some pos =>
          add_node_loop h node_id rest
            (insort ps pos) (<[pos := node_id]> v2n) (vnodes ++ [pos])
      end
  end.

Definition add_node (node_id : string) (r : ring) : outcome :=
  match node_to_vnodes r !! node_id with
  | Some _ => Failed (DuplicateNode node_id) r
  | None =>
      match add_node_loop (hash r) node_id (seq 0 (replicas_per_node r))
              (positions r) (vnode_to_node r) [] with
      | None => Hangs
      | Some (ps, v2n, vnodes) =>
          Done (Ring (replicas_per_node r) (hash r) (replication_factor r)
                  ps v2n (<[node_id := vnodes]> (node_to_vnodes r)))
      end
  end.

(** One iteration of the loop of [remove_node]. *)
Definition remove_pos (st : list Z * gmap Z string) (pos : Z)
    : list Z * gmap Z string :=
  let '(ps, v2n) := st in
  let idx := bisect_left ps pos in
  let ps' :=
    if decide (idx < length ps ∧ ps !!! idx = pos) then delete idx ps else ps in
  (ps', delete pos v2n).

(** [self.node_to_vnodes.pop(node_id, None)] comes first: the dictionary is
    already without [node_id] when the method raises. *)
Definition remove_node (node_id : string) (r : ring) : outcome :=
  let vnodes := node_to_vnodes r !! node_id in
  let n2v := delete node_id (node_to_vnodes r) in
  match vnodes with
  | None =>
      Failed (NodeNotFound node_id)
        (Ring (replicas_per_node r) (hash r) (replication_factor r)
           (positions r) (vnode_to_node r) n2v)
  | Some vs =>
      let '(ps, v2n) := foldl remove_pos (positions r, vnode_to_node r) vs in
      Done (Ring (replicas_per_node r) (hash r) (replication_factor r)
              ps v2n n2v)
  end.

(** ** Simulation helpers *)

(** [Counter]: a missing key reads as [0]. *)
Definition counter_incr (dist : gmap string nat) (node : string) : gmap string nat :=
  <[node := default 0 (dist !! node) + 1]> dist.

Fixpoint key_distribution_loop (r : ring) (keys : list string)
    (dist : gmap string nat) : result (gmap string nat) :=
  match keys with
  | [] => Return dist
  | k :: rest =>
      node ← get_primary_node k r;
      key_distribution_loop r rest (counter_incr dist node)
  end.

Definition key_distribution (keys : list string) (r : ring)
    : result (gmap string nat) :=
  key_distribution_loop r keys ∅.

(** [sum(dist.values())]. *)
Definition counter_total (dist : gmap string nat) : nat :=
  map_fold (λ _ c acc, c + acc) 0 dist.

Fixpoint moved_keys_loop (r : ring) (old_mapping : gmap string string)
    (keys : list string) (moved total : nat) : result (nat * nat) :=
  match keys with
  | [] => Return (moved, total)
  | k :: rest =>
      let total := total + 1 in
      new_node ← get_primary_node k r;
      if decide (old_mapping !! k ≠ Some new_node)
      then moved_keys_loop r old_mapping rest (moved + 1) total
      else moved_keys_loop r old_mapping rest moved total
  end.

(** The float the method returns is modelled by the exact quotient it is the
    rounding of. *)
Definition moved_keys_ratio (keys : list string)
    (old_mapping : gmap string string) (r : ring) : result Q :=
  '(moved, total) ← moved_keys_loop r old_mapping keys 0 0;
  Return (if decide (total = 0) then 0%Q
          else (inject_Z (Z.of_nat moved) / inject_Z (Z.of_nat total))%Q).

(** [assign_keys]: [assignments] is a [defaultdict(list)], so a node seen for
    the first time starts from the empty list. *)
Fixpoint assign_keys_loop (r : ring) (keys : list string)
    (assignments : gmap string (list string))
    : result (gmap string (list string)) :=
  match keys with
  | [] => Return assignments
  | k :: rest =>
      node ← get_primary_node k r;
      assign_keys_loop r rest
        (<[node := default [] (assignments !! node) ++ [k]]> assignments)
  end.

Definition assign_keys (keys : list string) (r : ring)
    : result (gmap string (list string)) :=
  assign_keys_loop r keys ∅.

(** Whether [node] is the primary node of key [k]. *)
Definition primary_is (r : ring) (node k : string) : bool :=
  match get_primary_node k r with
  | Return node' => bool_decide (node' = node)
  | _ => false
  end.

(** The elements of [l] that are not in [seen], each at its first
    occurrence only. *)
Fixpoint first_occurrences (seen : gset string) (l : list string)
    : list string :=
  match l with
  | [] => []
  | x :: l' =>
      if decide (x ∈ seen) then first_occurrences seen l'
      else x :: first_occurrences ({[x]} ∪ seen) l'
  end.

(** ** The default hash function

    [hashlib.sha1(...).digest()] is the library's; it is an argument here.  A
    Rocq string is the sequence of bytes of [value.encode("utf-8")]. *)

(** [int.from_bytes(bs, byteorder="big", signed=False)] *)
Definition from_bytes_big (bs : list Byte.byte) : Z :=
  foldl (λ acc b, acc * 256 + Z.of_N (Byte.to_N b))%Z 0%Z bs.

Definition default_hash (sha1_digest : list Byte.byte → list Byte.byte)
    (value : string) : Z :=
  let h := sha1_digest (String.list_byte_of_string value) in
  from_bytes_big (take 8 h).

(** The position a key is looked up at, in words: the smallest position
    [>= h], or the smallest position of all when there is none. *)
Definition clockwise_successor (ps : list Z) (h p : Z) : Prop :=
  p ∈ ps
  ∧ (((h ≤ p)%Z ∧ ∀ q, q ∈ ps → (h ≤ q)%Z → (p ≤ q)%Z)
     ∨ ((∀ q, q ∈ ps → (q < h)%Z) ∧ ∀ q, q ∈ ps → (p ≤ q)%Z)).

(** The count the ratio is specified by: a key is moved when the old mapping
    has no entry for it or another node than its primary node now. *)
Definition key_moved (r : ring) (old_mapping : gmap string string)
    (k : string) : bool :=
  match get_primary_node k r with
  | Return node => bool_decide (old_mapping !! k ≠ Some node)
  | _ => false
  end.

Definition moved_count (r : ring) (old_mapping : gmap string string)
    (keys : list string) : nat :=
  length (filter (λ k, key_moved r old_mapping k = true) keys).

(** ** Reachable states and the structural invariant *)

Definition state_after (o : outcome) : option ring :=
  match o with
  | Done r => Some r
  | Failed _ r => Some r
  | Hangs => None
  end.

(** The states a client can observe: a freshly constructed ring, and what a
    returning or raising call of a mutator leaves.  The queries above take the
    ring and give back a result only. *)
Inductive reachable : ring → Prop :=
  | reachable_new rpn h rf r :
      new_ring rpn h rf = Return r → reachable r
  | reachable_add_node node_id r r' :
      reachable r → state_after (add_node node_id r) = Some r' → reachable r'
  | reachable_remove_node node_id r r' :
      reachable r → state_after (remove_node node_id r) = Some r' → reachable r'.

(** The invariant of the data model, as the spec words it. *)
Record structural_invariant (r : ring) : Prop := {
  si_increasing : StronglySorted Z.lt (positions r);
  si_positions_keys :
    list_to_set (positions r) =@{gset Z} dom (vnode_to_node r);
  si_union : ∀ p, p ∈ positions r ↔
    ∃ n vs, node_to_vnodes r !! n = Some vs ∧ p ∈ vs;
  si_node_iff_value : ∀ n, n ∈ dom (node_to_vnodes r) ↔
    ∃ p, vnode_to_node r !! p = Some n
}.

(** The invariant the proofs carry.  [consistent] is on the three containers,
    so that it can be stated in the middle of a mutator: it adds to the above
    that the two dictionaries agree on who owns a position. *)
Definition consistent (ps : list Z) (v2n : gmap Z string)
    (n2v : gmap string (list Z)) : Prop :=
  StronglySorted Z.lt ps
  ∧ (∀ p, p ∈ ps ↔ is_Some (v2n !! p))
  ∧ (∀ n p, v2n !! p = Some n ↔ ∃ vs, n2v !! n = Some vs ∧ p ∈ vs).

Record ring_inv (r : ring) : Prop := {
  ri_consistent :
    consistent (positions r) (vnode_to_node r) (node_to_vnodes r);
  ri_vnodes : ∀ n vs, node_to_vnodes r !! n = Some vs →
    length vs = replicas_per_node r;
  ri_replicas : 0 < replicas_per_node r;
  ri_factor : 0 < replication_factor r
}.

(** ** Test fixtures: a synthetic hash function and small rings *)

Fixpoint byte_sum (s : string) : nat :=
  match s with
  | EmptyString => 0
  | String c s' => Ascii.nat_of_ascii c + byte_sum s'
  end.

Definition toy_hash (s : string) : Z := Z.of_nat ((byte_sum s * 7) `mod` 32).

Definition ring0 : ring := Ring 3 toy_hash 2 [] ∅ ∅.

Definition get_ring (o : outcome) : ring :=
  match o with Done r | Failed _ r => r | Hangs => ring0 end.
Definition ringA : ring := get_ring (add_node "A" ring0).
Definition ringAB : ring := get_ring (add_node "B" ringA).
Definition ringABC : ring := get_ring (add_node "C" ringAB).
Definition ringAC : ring := get_ring (remove_node "B" ringABC).

(** * Proofs *)

(** ** Binary search *)

Lemma StronglySorted_lookup_lt {A} (R : relation A) (a : list A) i j x y :
  StronglySorted R a → i < j → a !! i = Some x → a !! j = Some y → R x y.
Proof.
  intros Hs. revert i j. induction Hs as [|z a Hs IH Hz]; intros i j Hij Hi Hj.
  - by rewrite lookup_nil in Hi.
  - destruct j as [|j]; [lia|]. destruct i as [|i]; simpl in *.
    + injection Hi as <-. rewrite Forall_forall in Hz.
      apply Hz. by eapply list_elem_of_lookup_2.
    + eapply (IH i j); [lia|done..].
Qed.

Lemma sorted_le_lookup (a : list Z) i j x y :
  StronglySorted Z.le a → i ≤ j → a !! i = Some x → a !! j = Some y → (x ≤ y)%Z.
Proof.
  intros Hs Hij Hi Hj. destruct (decide (i = j)) as [->|].
  - rewrite Hi in Hj. injection Hj as ->. lia.
  - eapply (StronglySorted_lookup_lt Z.le a i j); [done|lia|done..].
Qed.

Lemma sorted_lt_le (a : list Z) : StronglySorted Z.lt a → StronglySorted Z.le a.
Proof.
  induction 1 as [|z a Hs IH Hz]; constructor; [done|].
  eapply Forall_impl; [done|]. simpl. lia.
Qed.

Lemma midpoint_bounds lo hi : lo < hi → lo ≤ (lo + hi) `div` 2 < hi.
Proof.
  intros. pose proof (Nat.div_mod_eq (lo + hi) 2).
  pose proof (Nat.mod_upper_bound (lo + hi) 2). lia.
Qed.

(** The iteration bound of the two loops is never what stops them. *)
Lemma bisect_left_loop_fuel n m a x lo hi :
  hi - lo ≤ n → hi - lo ≤ m →
  bisect_left_loop n a x lo hi = bisect_left_loop m a x lo hi.
Proof.
  revert m lo hi. induction n as [|n IH]; intros m lo hi Hn Hm.
  - destruct m; cbn [bisect_left_loop]; [done|]. case_decide; [lia|done].
  - destruct m as [|m]; cbn [bisect_left_loop].
    + case_decide; [lia|done].
    + case_decide as Hlt; [|done].
      pose proof (midpoint_bounds lo hi Hlt).
      case_decide; apply IH; lia.
Qed.

Lemma bisect_right_loop_fuel n m a x lo hi :
  hi - lo ≤ n → hi - lo ≤ m →
  bisect_right_loop n a x lo hi = bisect_right_loop m a x lo hi.
Proof.
  revert m lo hi. induction n as [|n IH]; intros m lo hi Hn Hm.
  - destruct m; cbn [bisect_right_loop]; [done|]. case_decide; [lia|done].
  - destruct m as [|m]; cbn [bisect_right_loop].
    + case_decide; [lia|done].
    + case_decide as Hlt; [|done].
      pose proof (midpoint_bounds lo hi Hlt).
      case_decide; apply IH; lia.
Qed.

Lemma bisect_left_loop_spec n a x lo hi :
  StronglySorted Z.le a → hi - lo ≤ n → lo ≤ hi ≤ length a →
  (∀ j y, j < lo → a !! j = Some y → (y < x)%Z) →
  (∀ j y, hi ≤ j → a !! j = Some y → (x ≤ y)%Z) →
  lo ≤ bisect_left_loop n a x lo hi ≤ hi
  ∧ (∀ j y, j < bisect_left_loop n a x lo hi → a !! j = Some y → (y < x)%Z)
  ∧ (∀ j y, bisect_left_loop n a x lo hi ≤ j → a !! j = Some y → (x ≤ y)%Z).
Proof.
  intros Hs. revert lo hi.
  induction n as [|n IH]; intros lo hi Hn Hb Hlo Hhi; cbn [bisect_left_loop].
  - assert (lo = hi) as -> by lia. eauto with lia.
  - case_decide as Hlt.
    2: { assert (lo = hi) as -> by lia. eauto with lia. }
    pose proof (midpoint_bounds lo hi Hlt) as Hmid.
    set (mid := (lo + hi) `div` 2) in *.
    destruct (lookup_lt_is_Some_2 a mid) as [v Hv]; [lia|].
    rewrite (list_lookup_total_correct a mid v Hv).
    case_decide as Hcmp.
    + destruct (IH (mid + 1) hi) as (? & ? & ?); [lia|lia| | |].
      * intros j y Hj Hy. pose proof (sorted_le_lookup a j mid y v Hs ltac:(lia) Hy Hv). lia.
      * done.
      * split; [lia|done].
    + destruct (IH lo mid) as (? & ? & ?); [lia|lia| | |].
      * done.
      * intros j y Hj Hy. pose proof (sorted_le_lookup a mid j v y Hs ltac:(lia) Hv Hy). lia.
      * split; [lia|done].
Qed.

Lemma bisect_right_loop_spec n a x lo hi :
  StronglySorted Z.le a → hi - lo ≤ n → lo ≤ hi ≤ length a →
  (∀ j y, j < lo → a !! j = Some y → (y ≤ x)%Z) →
  (∀ j y, hi ≤ j → a !! j = Some y → (x < y)%Z) →
  lo ≤ bisect_right_loop n a x lo hi ≤ hi
  ∧ (∀ j y, j < bisect_right_loop n a x lo hi → a !! j = Some y → (y ≤ x)%Z)
  ∧ (∀ j y, bisect_right_loop n a x lo hi ≤ j → a !! j = Some y → (x < y)%Z).
Proof.
  intros Hs. revert lo hi.
  induction n as [|n IH]; intros lo hi Hn Hb Hlo Hhi; cbn [bisect_right_loop].
  - assert (lo = hi) as -> by lia. eauto with lia.
  - case_decide as Hlt.
    2: { assert (lo = hi) as -> by lia. eauto with lia. }
    pose proof (midpoint_bounds lo hi Hlt) as Hmid.
    set (mid := (lo + hi) `div` 2) in *.
    destruct (lookup_lt_is_Some_2 a mid) as [v Hv]; [lia|].
    rewrite (list_lookup_total_correct a mid v Hv).
    case_decide as Hcmp.
    + destruct (IH lo mid) as (? & ? & ?); [lia|lia| | |].
      * done.
      * intros j y Hj Hy. pose proof (sorted_le_lookup a mid j v y Hs ltac:(lia) Hv Hy). lia.
      * split; [lia|done].
    + destruct (IH (mid + 1) hi) as (? & ? & ?); [lia|lia| | |].
      * intros j y Hj Hy. pose proof (sorted_le_lookup a j mid y v Hs ltac:(lia) Hy Hv). lia.
      * done.
      * split; [lia|done].
Qed.

Lemma bisect_left_spec (a : list Z) (x : Z) :
  StronglySorted Z.le a →
  bisect_left a x ≤ length a
  ∧ (∀ j y, j < bisect_left a x → a !! j = Some y → (y < x)%Z)
  ∧ (∀ j y, bisect_left a x ≤ j → a !! j = Some y → (x ≤ y)%Z).
Proof.
  intros Hs. unfold bisect_left.
  destruct (bisect_left_loop_spec (length a) a x 0 (length a)) as (? & ? & ?);
    [done|lia|lia| | |].
  - intros; lia.
  - intros j y Hj Hy. apply lookup_lt_Some in Hy. lia.
  - split; [lia|done].
Qed.

Lemma bisect_right_spec (a : list Z) (x : Z) :
  StronglySorted Z.le a →
  bisect_right a x ≤ length a
  ∧ (∀ j y, j < bisect_right a x → a !! j = Some y → (y ≤ x)%Z)
  ∧ (∀ j y, bisect_right a x ≤ j → a !! j = Some y → (x < y)%Z).
Proof.
  intros Hs. unfold bisect_right.
  destruct (bisect_right_loop_spec (length a) a x 0 (length a)) as (? & ? & ?);
    [done|lia|lia| | |].
  - intros; lia.
  - intros j y Hj Hy. apply lookup_lt_Some in Hy. lia.
  - split; [lia|done].
Qed.

(** ** Locating the clockwise successor *)

(** C3: on an empty [positions] list [_find_vnode_index] raises the
    EmptyRing condition; on a non-empty sorted one it returns a valid index,
    which is the index of the first element [>= key_hash] when there is such
    an element, and [0] when [key_hash] is greater than every element. *)
Theorem find_vnode_index_spec (r : ring) (key_hash : Z) :
  (positions r = [] → _find_vnode_index key_hash r = Raise EmptyRing)
  ∧ (positions r ≠ [] → StronglySorted Z.le (positions r) →
     ∃ idx, _find_vnode_index key_hash r = Return idx
       ∧ idx < length (positions r)
       ∧ ((∀ p, p ∈ positions r → (p < key_hash)%Z) → idx = 0)
       ∧ ((∃ p, p ∈ positions r ∧ (key_hash ≤ p)%Z) →
          ∃ q, positions r !! idx = Some q ∧ (key_hash ≤ q)%Z
            ∧ ∀ j y, j < idx → positions r !! j = Some y → (y < key_hash)%Z)).
Proof.
  unfold _find_vnode_index. split.
  - intros ->. done.
  - intros Hne Hs. rewrite decide_False by done.
    destruct (bisect_left_spec (positions r) key_hash Hs) as (Hlen & Hlo & Hhi).
    assert (0 < length (positions r)) by (destruct (positions r); [done|simpl; lia]).
    case_decide as Hidx.
    + exists 0. split_and!; [done|done|done|].
      intros (p & [j Hj]%list_elem_of_lookup_1 & Hp).
      pose proof (lookup_lt_Some _ _ _ Hj).
      specialize (Hlo j p ltac:(lia) Hj). lia.
    + exists (bisect_left (positions r) key_hash).
      destruct (lookup_lt_is_Some_2 (positions r)
                  (bisect_left (positions r) key_hash)) as [q Hq]; [lia|].
      pose proof (Hhi _ q ltac:(reflexivity) Hq).
      split_and!; [done|lia| |].
      * intros Hall. specialize (Hall q (list_elem_of_lookup_2 _ _ _ Hq)). lia.
      * intros _. exists q. done.
Qed.

Lemma find_vnode_index_spec_witness :
  ∃ idx, _find_vnode_index 9 ringABC = Return idx
    ∧ idx < length (positions ringABC)
    ∧ ((∀ p, p ∈ positions ringABC → (p < 9)%Z) → idx = 0)
    ∧ ((∃ p, p ∈ positions ringABC ∧ (9 ≤ p)%Z) →
       ∃ q, positions ringABC !! idx = Some q ∧ (9 ≤ q)%Z
         ∧ ∀ j y, j < idx → positions ringABC !! j = Some y → (y < 9)%Z).
Proof.
  apply (proj2 (find_vnode_index_spec ringABC 9)).
  - vm_compute. discriminate.
  - apply (bool_decide_unpack _). vm_compute. exact I.
Defined.

Example find_vnode_index_inside :
  positions ringABC = [1; 2; 8; 12; 19; 20; 26; 27; 28]%Z
  ∧ _find_vnode_index 9 ringABC = Return 3
  ∧ _find_vnode_index 12 ringABC = Return 3
  ∧ _find_vnode_index 29 ringABC = Return 0
  ∧ _find_vnode_index 9 ring0 = Raise EmptyRing.
Proof. vm_compute. done. Qed.

(** ** Ordered insertion and removal *)

Lemma insort_elem_of (a : list Z) (x p : Z) : p ∈ insort a x ↔ p = x ∨ p ∈ a.
Proof.
  unfold insort, list_insert_at.
  assert (p ∈ a ↔ p ∈ take (bisect_right a x) a ∨ p ∈ drop (bisect_right a x) a)
    by (by rewrite <-elem_of_app, take_drop).
  rewrite elem_of_app, elem_of_cons. tauto.
Qed.

Lemma insort_sorted (a : list Z) (x : Z) :
  StronglySorted Z.lt a → x ∉ a → StronglySorted Z.lt (insort a x).
Proof.
  intros Hs Hx. unfold insort, list_insert_at.
  destruct (bisect_right_spec a x (sorted_lt_le a Hs)) as (Hlen & Hlo & Hhi).
  set (i := bisect_right a x) in *.
  rewrite <-(take_drop i a) in Hs.
  apply StronglySorted_app in Hs as (Hcross & Hl & Hr).
  assert (∀ y, y ∈ take i a → (y < x)%Z) as Hbelow.
  { intros y Hy. assert (y ≠ x).
    { intros ->. apply Hx. rewrite <-(take_drop i a), elem_of_app. by left. }
    apply list_elem_of_lookup_1 in Hy as [j Hj].
    apply lookup_take_Some in Hj as [Hj ?].
    specialize (Hlo j y ltac:(lia) Hj). lia. }
  assert (∀ y, y ∈ drop i a → (x < y)%Z) as Habove.
  { intros y [j Hj]%list_elem_of_lookup_1. rewrite lookup_drop in Hj.
    apply (Hhi (i + j) y); [lia|done]. }
  apply StronglySorted_app_2; [|done|].
  - intros x1 x2 H1 [->|H2]%elem_of_cons; [by apply Hbelow|].
    specialize (Hbelow x1 H1). specialize (Habove x2 H2). lia.
  - constructor; [done|]. by apply Forall_forall.
Qed.

Lemma remove_pos_spec (ps : list Z) (v2n : gmap Z string) (pos : Z) :
  StronglySorted Z.lt ps →
  StronglySorted Z.lt (remove_pos (ps, v2n) pos).1
  ∧ (∀ p, p ∈ (remove_pos (ps, v2n) pos).1 ↔ p ∈ ps ∧ p ≠ pos)
  ∧ (remove_pos (ps, v2n) pos).2 = delete pos v2n.
Proof.
  intros Hs. unfold remove_pos.
  destruct (bisect_left_spec ps pos (sorted_lt_le ps Hs)) as (Hlen & Hlo & Hhi).
  set (idx := bisect_left ps pos) in *. simpl.
  split_and!; [| |done]; case_decide as Hg.
  - destruct Hg as [Hidx Hat].
    rewrite delete_take_drop.
    rewrite <-(take_drop idx ps) in Hs.
    apply StronglySorted_app in Hs as (Hcross & Hl & Hr).
    rewrite (drop_S ps pos idx) in Hr, Hcross
      by (rewrite <-Hat; by apply list_lookup_lookup_total_lt).
    apply StronglySorted_cons in Hr as [Hhd Hr].
    apply StronglySorted_app_2; [|done..].
    intros x1 x2 H1 H2. apply Hcross; [done|]. by apply elem_of_cons; right.
  - done.
  - destruct Hg as [Hidx Hat]. intros p.
    assert (ps !! idx = Some pos) as Hlk
      by (rewrite <-Hat; by apply list_lookup_lookup_total_lt).
    rewrite delete_take_drop.
    rewrite <-(take_drop_middle ps idx pos Hlk) at 3.
    rewrite <-(take_drop_middle ps idx pos Hlk) in Hs.
    apply StronglySorted_app in Hs as (Hcross & Hl & Hr).
    apply StronglySorted_cons in Hr as [Hhd Hr]. rewrite Forall_forall in Hhd.
    rewrite !elem_of_app, elem_of_cons. split.
    + intros [Hp|Hp].
      * specialize (Hcross p pos Hp ltac:(by apply elem_of_cons; left)).
        split; [by left|lia].
      * specialize (Hhd p Hp). split; [by right; right|lia].
    + intros [[?|[?|?]] ?]; [by left|done|by right].
  - intros p. split; [|tauto]. intros Hp. split; [done|]. intros ->.
    apply Hg. apply list_elem_of_lookup_1 in Hp as [j Hj].
    pose proof (lookup_lt_Some _ _ _ Hj).
    assert (idx ≤ j).
    { destruct (decide (idx ≤ j)); [done|].
      specialize (Hlo j pos ltac:(lia) Hj). lia. }
    destruct (lookup_lt_is_Some_2 ps idx) as [q Hq]; [lia|].
    pose proof (Hhi idx q ltac:(lia) Hq).
    pose proof (sorted_le_lookup ps idx j q pos (sorted_lt_le ps Hs) ltac:(lia) Hq Hj).
    split; [lia|]. rewrite (list_lookup_total_correct _ _ _ Hq). lia.
Qed.

Lemma remove_all_spec (vs : list Z) (ps : list Z) (v2n : gmap Z string) :
  StronglySorted Z.lt ps →
  StronglySorted Z.lt (foldl remove_pos (ps, v2n) vs).1
  ∧ (∀ p, p ∈ (foldl remove_pos (ps, v2n) vs).1 ↔ p ∈ ps ∧ p ∉ vs)
  ∧ (∀ p, (foldl remove_pos (ps, v2n) vs).2 !! p
          = if decide (p ∈ vs) then None else v2n !! p).
Proof.
  revert ps v2n. induction vs as [|pos vs IH]; intros ps v2n Hs.
  - simpl. split_and!; [done| |done]. intros p. rewrite elem_of_nil. tauto.
  - cbn [foldl].
    destruct (remove_pos_spec ps v2n pos Hs) as (Hs1 & Hin1 & Hmap1).
    destruct (remove_pos (ps, v2n) pos) as [ps1 m1]. simpl in *. subst m1.
    destruct (IH ps1 (delete pos v2n) Hs1) as (Hs2 & Hin2 & Hmap2).
    split_and!; [done| |].
    + intros p. rewrite Hin2, Hin1, not_elem_of_cons. tauto.
    + intros p. rewrite Hmap2.
      destruct (decide (p = pos)) as [->|Hne].
      * rewrite lookup_delete_eq, (decide_True (P := pos ∈ pos :: vs))
          by (by left). by case_decide.
      * rewrite lookup_delete_ne by done.
        destruct (decide (p ∈ vs)) as [Hv|Hv].
        -- rewrite decide_True; [done|by right].
        -- rewrite decide_False; [done|]. by intros [?|?]%elem_of_cons.
Qed.

(** ** Linear probing *)

Lemma next_pos_mod (pos : Z) : next_pos pos = ((pos + 1) `mod` 2 ^ 64)%Z.
Proof.
  unfold next_pos. change MASK64 with (Z.ones 64). by apply Z.land_ones.
Qed.

Lemma probe_spec n m pos p :
  probe n m pos = Some p →
  m !! p = None
  ∧ ∃ k, k < n ∧ p = Nat.iter k next_pos pos
      ∧ ∀ j, j < k → is_Some (m !! Nat.iter j next_pos pos).
Proof.
  revert pos. induction n as [|n IH]; intros pos; simpl; [done|].
  destruct (m !! pos) as [v|] eqn:Hpos.
  - intros (Hfree & k & Hk & -> & Hocc)%IH. split; [done|].
    exists (S k). split_and!; [lia|by rewrite Nat.iter_succ_r|].
    intros [|j] Hj; simpl; [by rewrite Hpos|].
    rewrite <-Nat.iter_succ, Nat.iter_succ_r. apply Hocc. lia.
  - intros [= <-]. split; [done|]. exists 0. split_and!; [lia|done|lia].
Qed.

Lemma probe_exhausted n m pos :
  probe n m pos = None → ∀ j, j < n → is_Some (m !! Nat.iter j next_pos pos).
Proof.
  revert pos. induction n as [|n IH]; intros pos; simpl; [lia|].
  destruct (m !! pos) as [v|] eqn:Hpos; [|done].
  intros Hn [|j] Hj; simpl; [by rewrite Hpos|].
  rewrite <-Nat.iter_succ, Nat.iter_succ_r. apply IH; [done|lia].
Qed.

Lemma iter_next_pos j pos :
  Nat.iter (S j) next_pos pos = ((pos + Z.of_nat (S j)) `mod` 2 ^ 64)%Z.
Proof.
  induction j as [|j IH].
  - simpl. by rewrite next_pos_mod.
  - rewrite Nat.iter_succ, IH, next_pos_mod.
    rewrite Zplus_mod_idemp_l. f_equal. lia.
Qed.

Lemma mod_shift_ne (M a d : Z) :
  (0 < d < M)%Z → (a `mod` M ≠ (a + d) `mod` M)%Z.
Proof.
  intros Hd Heq.
  pose proof (Z.div_mod a M ltac:(lia)).
  pose proof (Z.div_mod (a + d) M ltac:(lia)).
  set (k := ((a + d) `div` M - a `div` M)%Z).
  assert (d = M * k)%Z as Hm by (unfold k; lia).
  destruct (Z_le_gt_dec k 0); nia.
Qed.

(** Fewer than [2^64] candidates in a row are pairwise different. *)
Lemma candidates_inj pos i j :
  (Z.of_nat i < 2 ^ 64)%Z → (Z.of_nat j < 2 ^ 64)%Z → i < j →
  Nat.iter i next_pos pos ≠ Nat.iter j next_pos pos.
Proof.
  intros Hi Hj Hij. destruct j as [|j]; [lia|]. rewrite iter_next_pos.
  destruct i as [|i].
  - simpl. intros Heq.
    assert (0 ≤ pos < 2 ^ 64)%Z as Hr
      by (rewrite Heq; apply Z.mod_pos_bound; lia).
    apply (mod_shift_ne (2 ^ 64) pos (Z.of_nat (S j))); [lia|].
    rewrite <-Heq. by rewrite Z.mod_small.
  - rewrite iter_next_pos.
    replace (pos + Z.of_nat (S j))%Z
      with (pos + Z.of_nat (S i) + (Z.of_nat j - Z.of_nat i))%Z by lia.
    apply mod_shift_ne. lia.
Qed.

Lemma candidates_NoDup n pos :
  (Z.of_nat n ≤ 2 ^ 64)%Z →
  NoDup ((λ j, Nat.iter j next_pos pos) <$> seq 0 n).
Proof.
  intros Hn. apply NoDup_fmap_2_strong; [|apply NoDup_seq].
  intros i j [_ Hi]%elem_of_seq [_ Hj]%elem_of_seq Heq. simpl in *.
  destruct (Nat.lt_trichotomy i j) as [Hlt|[->|Hlt]]; [|done|].
  - by destruct (candidates_inj pos i j ltac:(lia) ltac:(lia) Hlt).
  - by destruct (candidates_inj pos j i ltac:(lia) ltac:(lia) Hlt).
Qed.

(** The collision loop exits unless the dictionary holds [2^64] keys. *)
Lemma probe_total (m : gmap Z string) (pos : Z) :
  (Z.of_nat (size m) < 2 ^ 64)%Z → is_Some (probe (S (size m)) m pos).
Proof.
  intros Hsz. destruct (probe (S (size m)) m pos) eqn:Hp; [done|exfalso].
  pose proof (probe_exhausted _ _ _ Hp) as Hocc.
  set (cands := (λ j, Nat.iter j next_pos pos) <$> seq 0 (S (size m))).
  assert (list_to_set cands ⊆ dom m) as Hsub.
  { intros c [j [-> [_ Hj]%elem_of_seq]]%elem_of_list_to_set%list_elem_of_fmap.
    apply elem_of_dom, Hocc. lia. }
  apply subseteq_size in Hsub.
  rewrite size_list_to_set in Hsub by (apply candidates_NoDup; lia).
  unfold cands in Hsub. rewrite length_fmap, length_seq, size_dom in Hsub. lia.
Qed.

(** ** [add_node] *)

(** What the replica loop leaves: the positions [new] it appended to
    [vnodes], one per replica index, each the first free candidate of its
    probe sequence at the time it was placed. *)
Lemma add_node_loop_spec h x idxs ps v2n vnodes ps' v2n' vnodes' :
  add_node_loop h x idxs ps v2n vnodes = Some (ps', v2n', vnodes') →
  ∃ new : list Z, vnodes' = vnodes ++ new ∧ length new = length idxs
    ∧ (∀ p, v2n' !! p = if decide (p ∈ new) then Some x else v2n !! p)
    ∧ (∀ p, p ∈ ps' ↔ p ∈ ps ∨ p ∈ new)
    ∧ (∀ i idx p, idxs !! i = Some idx → new !! i = Some p →
       v2n !! p = None ∧ (p ∉ take i new)
       ∧ ∃ k, p = Nat.iter k next_pos (h (vnode_key x idx))
           ∧ ∀ j, j < k →
               is_Some (v2n !! Nat.iter j next_pos (h (vnode_key x idx)))
               ∨ Nat.iter j next_pos (h (vnode_key x idx)) ∈ take i new).
Proof.
  revert ps v2n vnodes.
  induction idxs as [|idx0 idxs IH]; intros ps v2n vnodes; cbn [add_node_loop].
  - intros [= <- <- <-]. exists []. rewrite app_nil_r.
    split_and!; [done|done| | |].
    + intros p. rewrite decide_False; [done|apply not_elem_of_nil].
    + intros p. rewrite elem_of_nil. tauto.
    + intros i idx p Hi. by rewrite lookup_nil in Hi.
  - destruct (probe (S (size v2n)) v2n (h (vnode_key x idx0)))
      as [pos|] eqn:Hprobe; [|done].
    apply probe_spec in Hprobe as (Hfree & k & _ & Hk & Hocc).
    intros Hloop. apply IH in Hloop as (new & -> & Hlen & Hmap & Hps & Hch).
    exists (pos :: new). split_and!.
    + by rewrite <-app_assoc.
    + simpl. by rewrite Hlen.
    + intros p. rewrite Hmap. destruct (decide (p = pos)) as [->|Hne].
      * rewrite lookup_insert_eq, (decide_True (P := pos ∈ pos :: new))
          by (by left). by case_decide.
      * rewrite lookup_insert_ne by done.
        destruct (decide (p ∈ new)) as [Hin|Hin].
        -- rewrite decide_True; [done|by right].
        -- rewrite decide_False; [done|]. by intros [?|?]%elem_of_cons.
    + intros p. rewrite Hps, insort_elem_of, elem_of_cons. tauto.
    + intros [|i] idx p Hi Hp; simpl in Hi, Hp.
      * injection Hi as <-. injection Hp as <-.
        split_and!; [done|by rewrite take_0; apply not_elem_of_nil|].
        exists k. split; [done|]. intros j Hj. left. by apply Hocc.
      * destruct (Hch i idx p Hi Hp) as (Hnone & Hnot & k' & Hk' & Hocc').
        apply lookup_insert_None in Hnone as [Hnone Hne].
        split_and!; [done| |].
        { simpl. by intros [?|?]%elem_of_cons. }
        exists k'. split; [done|]. intros j Hj.
        destruct (Hocc' j Hj) as [Hs|Hin].
        -- apply lookup_insert_is_Some in Hs as [<-|[_ Hs]].
           ++ right. simpl. by left.
           ++ by left.
        -- right. simpl. by right.
Qed.

Lemma add_node_loop_sorted h x idxs ps v2n vnodes ps' v2n' vnodes' :
  add_node_loop h x idxs ps v2n vnodes = Some (ps', v2n', vnodes') →
  StronglySorted Z.lt ps → (∀ p, p ∈ ps → is_Some (v2n !! p)) →
  StronglySorted Z.lt ps'.
Proof.
  revert ps v2n vnodes.
  induction idxs as [|idx0 idxs IH]; intros ps v2n vnodes; cbn [add_node_loop].
  - by intros [= <- <- <-].
  - destruct (probe (S (size v2n)) v2n (h (vnode_key x idx0)))
      as [pos|] eqn:Hprobe; [|done].
    apply probe_spec in Hprobe as (Hfree & _).
    intros Hloop Hs Hkeys. eapply IH; [done| |].
    + apply insort_sorted; [done|]. intros [v Hv]%Hkeys. congruence.
    + intros p [->|Hp]%insort_elem_of.
      * by rewrite lookup_insert_eq.
      * apply lookup_insert_is_Some'. right. by apply Hkeys.
Qed.

(** The replica loop finishes as long as the dictionary stays under [2^64]
    keys. *)
Lemma add_node_loop_total h x idxs ps v2n vnodes :
  (Z.of_nat (size v2n + length idxs) ≤ 2 ^ 64)%Z →
  is_Some (add_node_loop h x idxs ps v2n vnodes).
Proof.
  revert ps v2n vnodes.
  induction idxs as [|idx0 idxs IH]; intros ps v2n vnodes Hsz;
    cbn [add_node_loop]; [done|].
  simpl in Hsz.
  destruct (probe_total v2n (h (vnode_key x idx0)) ltac:(lia)) as [pos Hpos].
  rewrite Hpos. apply IH.
  apply probe_spec in Hpos as [Hfree _].
  rewrite map_size_insert_None by done. lia.
Qed.

Lemma add_node_total (x : string) (r : ring) :
  node_to_vnodes r !! x = None →
  (Z.of_nat (size (vnode_to_node r) + replicas_per_node r) ≤ 2 ^ 64)%Z →
  ∃ r', add_node x r = Done r'.
Proof.
  intros Hx Hsz. unfold add_node. rewrite Hx.
  destruct (add_node_loop_total (hash r) x (seq 0 (replicas_per_node r))
              (positions r) (vnode_to_node r) []) as [[[ps v2n] vs] ->].
  - by rewrite length_seq.
  - eauto.
Qed.

Lemma consistent_add_node (x : string) (ps : list Z) (v2n : gmap Z string)
    (n2v : gmap string (list Z)) (ps' : list Z) (v2n' : gmap Z string)
    (new : list Z) :
  consistent ps v2n n2v → n2v !! x = None →
  StronglySorted Z.lt ps' →
  (∀ p, v2n' !! p = if decide (p ∈ new) then Some x else v2n !! p) →
  (∀ p, p ∈ ps' ↔ p ∈ ps ∨ p ∈ new) →
  (∀ p, p ∈ new → v2n !! p = None) →
  consistent ps' v2n' (<[x := new]> n2v).
Proof.
  intros (Hs & Hkeys & Hown) Hx Hs' Hmap Hps Hfree. split_and!; [done| |].
  - intros p. rewrite Hps, Hmap, Hkeys. case_decide as Hin.
    + split; [by eauto|]. by right.
    + split; [|by left]. intros [?|?]; [done|by destruct Hin].
  - intros n p. rewrite Hmap. destruct (decide (n = x)) as [->|Hne].
    + rewrite lookup_insert_eq. case_decide as Hin.
      * split; [by eauto|done].
      * rewrite Hown, Hx. split; [by intros (? & ? & ?)|].
        by intros (? & [= <-] & ?).
    + rewrite lookup_insert_ne by done. case_decide as Hin; [|apply Hown].
      split; [congruence|]. intros Hn%Hown.
      rewrite (Hfree p Hin) in Hn. done.
Qed.

Lemma ring_inv_add_node (x : string) (r r' : ring) :
  ring_inv r → add_node x r = Done r' → ring_inv r'.
Proof.
  intros [Hc Hv Hrpn Hrf]. unfold add_node.
  destruct (node_to_vnodes r !! x) eqn:Hx; [done|].
  destruct (add_node_loop _ _ _ _ _ _) as [[[ps v2n] vs]|] eqn:Hloop; [|done].
  intros [= <-].
  pose proof (add_node_loop_sorted _ _ _ _ _ _ _ _ _ Hloop) as Hs.
  apply add_node_loop_spec in Hloop as (new & -> & Hlen & Hmap & Hps & Hch).
  rewrite length_seq in Hlen.
  split; simpl; [|  |done..].
  - apply (consistent_add_node x (positions r) (vnode_to_node r)); try done.
    + destruct Hc as (? & Hkeys & ?). apply Hs; [done|]. intros p. apply Hkeys.
    + intros p [i Hi]%list_elem_of_lookup_1.
      destruct (lookup_lt_is_Some_2 (seq 0 (replicas_per_node r)) i)
        as [idx Hidx]; [rewrite length_seq, <-Hlen; by eapply lookup_lt_Some|].
      by destruct (Hch i idx p Hidx Hi) as [? _].
  - intros n vs. destruct (decide (x = n)) as [->|Hne].
    + rewrite lookup_insert_eq. by intros [= <-].
    + rewrite lookup_insert_ne by done. apply Hv.
Qed.

(** ** [remove_node] *)

Lemma ring_inv_remove_node (x : string) (r r' : ring) :
  ring_inv r → remove_node x r = Done r' → ring_inv r'.
Proof.
  intros [(Hs & Hkeys & Hown) Hv Hrpn Hrf]. unfold remove_node.
  destruct (node_to_vnodes r !! x) as [vs|] eqn:Hx; [|done].
  destruct (remove_all_spec vs (positions r) (vnode_to_node r) Hs)
    as (Hs' & Hps & Hmap).
  destruct (foldl remove_pos _ vs) as [ps v2n]. simpl in *.
  intros [= <-]. split; simpl; [|  |done..].
  - split_and!; [done| |].
    + intros p. rewrite Hps, Hmap, Hkeys. case_decide as Hin.
      * split; [by intros [_ ?]|by intros [? ?]].
      * split; [by intros [? _]|done].
    + intros n p. rewrite Hmap. case_decide as Hin.
      * split; [done|]. intros (vs' & Hn & Hp).
        apply lookup_delete_Some in Hn as [Hne Hn].
        assert (vnode_to_node r !! p = Some n) as H1 by (apply Hown; eauto).
        assert (vnode_to_node r !! p = Some x) as H2 by (apply Hown; eauto).
        congruence.
      * rewrite Hown. split.
        -- intros (vs' & Hn & Hp). exists vs'. split; [|done].
           apply lookup_delete_Some. split; [|done]. intros <-.
           rewrite Hx in Hn. injection Hn as <-. done.
        -- intros (vs' & [_ Hn]%lookup_delete_Some & Hp). eauto.
  - intros n vs' [_ Hn]%lookup_delete_Some. by eapply Hv.
Qed.

(** ** The invariant on reachable states *)

Lemma ring_inv_new rpn h rf (r : ring) : new_ring rpn h rf = Return r → ring_inv r.
Proof.
  unfold new_ring.
  destruct (0 <? rpn) eqn:Hrpn; [|done]. destruct (0 <? rf) eqn:Hrf; [|done].
  apply Nat.ltb_lt in Hrpn, Hrf. intros [= <-]. split; simpl; [|done..].
  split_and!.
  - constructor.
  - intros p. rewrite lookup_empty, elem_of_nil. split; [done|by intros [? ?]].
  - intros n p. rewrite lookup_empty. split; [done|].
    intros (vs & Hn & _). by rewrite lookup_empty in Hn.
Qed.

Lemma add_node_failed (x : string) (r r' : ring) e :
  add_node x r = Failed e r' → r' = r.
Proof.
  unfold add_node. destruct (node_to_vnodes r !! x); [congruence|].
  by destruct (add_node_loop _ _ _ _ _ _) as [[[? ?] ?]|].
Qed.

Lemma remove_node_failed (x : string) (r r' : ring) e :
  remove_node x r = Failed e r' → r' = r.
Proof.
  unfold remove_node. destruct (node_to_vnodes r !! x) eqn:Hx.
  - by destruct (foldl _ _ _).
  - intros [= _ <-]. rewrite delete_id by done. by destruct r.
Qed.

Lemma reachable_ring_inv (r : ring) : reachable r → ring_inv r.
Proof.
  induction 1 as [rpn h rf r Hnew|x r r' _ IH Hstep|x r r' _ IH Hstep].
  - by eapply ring_inv_new.
  - destruct (add_node x r) as [r1|e r1|] eqn:Hadd; simplify_eq/=.
    + by eapply ring_inv_add_node.
    + by rewrite (add_node_failed _ _ _ _ Hadd).
  - destruct (remove_node x r) as [r1|e r1|] eqn:Hrem; simplify_eq/=.
    + by eapply ring_inv_remove_node.
    + by rewrite (remove_node_failed _ _ _ _ Hrem).
Qed.

Lemma ring_inv_structural (r : ring) : ring_inv r → structural_invariant r.
Proof.
  intros [(Hs & Hkeys & Hown) Hv Hrpn Hrf]. split.
  - done.
  - apply set_eq. intros p.
    by rewrite elem_of_list_to_set, elem_of_dom, Hkeys.
  - intros p. rewrite Hkeys. split.
    + intros [n (vs & ? & ?)%Hown]. eauto.
    + intros (n & vs & Hn & Hp). exists n. apply Hown. eauto.
  - intros n. rewrite elem_of_dom. split.
    + intros [vs Hn]. pose proof (Hv n vs Hn) as Hlen.
      destruct vs as [|p vs]; [simpl in Hlen; lia|].
      exists p. apply Hown. exists (p :: vs). split; [done|by left].
    + intros [p (vs & -> & _)%Hown]. done.
Qed.

(** C2: every state reachable from a freshly constructed ring through
    [add_node] and [remove_node] calls, returning or raising, satisfies the
    structural invariant: [positions] strictly increasing, its elements the
    keys of [vnode_to_node] and the union of the lists of [node_to_vnodes],
    and a node registered iff it is a value of [vnode_to_node]; and so does
    the state either mutator leaves when called on it. *)
Theorem reachable_structural_invariant (r : ring) :
  reachable r →
  structural_invariant r
  ∧ (∀ node_id r', state_after (add_node node_id r) = Some r' →
       structural_invariant r')
  ∧ (∀ node_id r', state_after (remove_node node_id r) = Some r' →
       structural_invariant r').
Proof.
  intros Hr. split_and!.
  - by apply ring_inv_structural, reachable_ring_inv.
  - intros x r' Hstep. apply ring_inv_structural, reachable_ring_inv.
    by apply (reachable_add_node x r).
  - intros x r' Hstep. apply ring_inv_structural, reachable_ring_inv.
    by apply (reachable_remove_node x r).
Qed.

Lemma reachable_ring0 : reachable ring0.
Proof. by apply (reachable_new 3 toy_hash 2). Defined.

Lemma reachable_ringA : reachable ringA.
Proof.
  apply (reachable_add_node "A" ring0); [apply reachable_ring0|].
  vm_compute. reflexivity.
Defined.

Lemma reachable_ringABC : reachable ringABC.
Proof.
  apply (reachable_add_node "C" ringAB).
  - apply (reachable_add_node "B" ringA); [apply reachable_ringA|].
    vm_compute. reflexivity.
  - vm_compute. reflexivity.
Defined.

Lemma reachable_structural_invariant_witness :
  structural_invariant ringABC
  ∧ (∀ node_id r', state_after (add_node node_id ringABC) = Some r' →
       structural_invariant r')
  ∧ (∀ node_id r', state_after (remove_node node_id ringABC) = Some r' →
       structural_invariant r').
Proof. apply (reachable_structural_invariant ringABC), reachable_ringABC. Defined.

Example remove_node_state :
  state_after (remove_node "B" ringABC) = Some ringAC
  ∧ positions ringAC = [2; 8; 12; 19; 26; 28]%Z
  ∧ dom (vnode_to_node ringAC) = list_to_set (positions ringAC)
  ∧ dom (node_to_vnodes ringAC) = {[ "A"; "C" ]}.
Proof. vm_compute. done. Qed.

(** ** Error paths of the mutators *)

(** C4: [add_node] of a registered node raises the DuplicateNode condition,
    [remove_node] of an unregistered node raises the NodeNotFound condition,
    and the ring either call leaves is the ring it was given. *)
Theorem duplicate_and_missing_node_errors (x : string) (r : ring) :
  (x ∈ dom (node_to_vnodes r) → add_node x r = Failed (DuplicateNode x) r)
  ∧ (x ∉ dom (node_to_vnodes r) → remove_node x r = Failed (NodeNotFound x) r).
Proof.
  split.
  - intros [vs Hx]%elem_of_dom. unfold add_node. by rewrite Hx.
  - intros Hx%not_elem_of_dom. unfold remove_node. rewrite Hx.
    rewrite delete_id by done. by destruct r.
Qed.

Lemma duplicate_and_missing_node_errors_witness :
  add_node "A" ringAC = Failed (DuplicateNode "A") ringAC
  ∧ remove_node "B" ringAC = Failed (NodeNotFound "B") ringAC.
Proof.
  split.
  - apply (proj1 (duplicate_and_missing_node_errors "A" ringAC)).
    apply (bool_decide_unpack _). vm_compute. exact I.
  - apply (proj2 (duplicate_and_missing_node_errors "B" ringAC)).
    apply (bool_decide_unpack _). vm_compute. exact I.
Defined.

(** ** What [add_node] places *)

Lemma iter_next_pos_mod k pos :
  Nat.iter k next_pos pos = Nat.iter k (λ q, ((q + 1) `mod` 2 ^ 64)%Z) pos.
Proof.
  induction k as [|k IH]; [done|]. by rewrite !Nat.iter_succ, IH, next_pos_mod.
Qed.

Lemma NoDup_fresh_prefix (l : list Z) :
  (∀ i p, l !! i = Some p → p ∉ take i l) → NoDup l.
Proof.
  intros Hfresh. apply NoDup_alt. intros i j p Hi Hj.
  destruct (Nat.lt_trichotomy i j) as [Hlt|[->|Hlt]]; [|done|].
  - destruct (Hfresh j p Hj). apply list_elem_of_lookup_2 with i.
    by apply lookup_take_Some.
  - destruct (Hfresh i p Hi). apply list_elem_of_lookup_2 with j.
    by apply lookup_take_Some.
Qed.

(** C5: a returning [add_node x] on a ring where [x] is not registered
    leaves [node_to_vnodes[x]] a list of [replicas_per_node] different
    positions, each mapped to [x] in [vnode_to_node]; the position of replica
    [i] is reached from [hash(x#i)] by [k] steps of [+1 mod 2^64], it was free
    (not a key of the dictionary before the call, not a position of an
    earlier replica), and the [k] candidates before it were taken. *)
Theorem add_node_owns_replicas (x : string) (r r' : ring) :
  node_to_vnodes r !! x = None → add_node x r = Done r' →
  ∃ vnodes : list Z,
    node_to_vnodes r' !! x = Some vnodes
    ∧ length vnodes = replicas_per_node r
    ∧ NoDup vnodes
    ∧ (∀ p, p ∈ vnodes → vnode_to_node r' !! p = Some x)
    ∧ (∀ i p, vnodes !! i = Some p →
        vnode_to_node r !! p = None ∧ (p ∉ take i vnodes)
        ∧ ∃ k,
            p = Nat.iter k (λ q, ((q + 1) `mod` 2 ^ 64)%Z) (hash r (vnode_key x i))
            ∧ ∀ j, j < k →
                let c := Nat.iter j (λ q, ((q + 1) `mod` 2 ^ 64)%Z)
                           (hash r (vnode_key x i)) in
                is_Some (vnode_to_node r !! c) ∨ c ∈ take i vnodes).
Proof.
  intros Hx. unfold add_node. rewrite Hx.
  destruct (add_node_loop _ _ _ _ _ _) as [[[ps v2n] vs]|] eqn:Hloop; [|done].
  intros [= <-]. simpl.
  apply add_node_loop_spec in Hloop as (new & -> & Hlen & Hmap & Hps & Hch).
  rewrite length_seq in Hlen. simpl.
  assert (∀ i p, new !! i = Some p →
            seq 0 (replicas_per_node r) !! i = Some i) as Hidx.
  { intros i p Hi%lookup_lt_Some. apply lookup_seq. lia. }
  exists new. split_and!.
  - by rewrite lookup_insert_eq.
  - done.
  - apply NoDup_fresh_prefix. intros i p Hi.
    by destruct (Hch i i p (Hidx i p Hi) Hi) as (_ & ? & _).
  - intros p Hp. by rewrite Hmap, decide_True.
  - intros i p Hi.
    destruct (Hch i i p (Hidx i p Hi) Hi) as (Hfree & Hfresh & k & Hk & Hocc).
    split_and!; [done|done|]. exists k. rewrite <-iter_next_pos_mod.
    split; [done|]. intros j Hj. simpl. rewrite <-iter_next_pos_mod. by apply Hocc.
Qed.

Lemma add_node_owns_replicas_witness :
  ∃ vnodes : list Z,
    node_to_vnodes ringAB !! "B" = Some vnodes
    ∧ length vnodes = replicas_per_node ringA
    ∧ NoDup vnodes
    ∧ (∀ p, p ∈ vnodes → vnode_to_node ringAB !! p = Some "B")
    ∧ (∀ i p, vnodes !! i = Some p →
        vnode_to_node ringA !! p = None ∧ (p ∉ take i vnodes)
        ∧ ∃ k,
            p = Nat.iter k (λ q, ((q + 1) `mod` 2 ^ 64)%Z)
                  (hash ringA (vnode_key "B" i))
            ∧ ∀ j, j < k →
                let c := Nat.iter j (λ q, ((q + 1) `mod` 2 ^ 64)%Z)
                           (hash ringA (vnode_key "B" i)) in
                is_Some (vnode_to_node ringA !! c) ∨ c ∈ take i vnodes).
Proof.
  apply (add_node_owns_replicas "B" ringA ringAB).
  - vm_compute. reflexivity.
  - vm_compute. reflexivity.
Defined.

(** The probing at work: ["A#1"] and ["B#0"] hash to the same position, and a
    hash of [2^64 - 1] that is taken wraps around to [0]. *)
Example add_node_probing :
  vnode_key "node-A" 10 = "node-A#10"
  ∧ toy_hash "A#1" = 19%Z ∧ toy_hash "B#0" = 19%Z
  ∧ node_to_vnodes ringAB !! "A" = Some [12; 19; 26]%Z
  ∧ node_to_vnodes ringAB !! "B" = Some [20; 27; 1]%Z
  ∧ positions ringAB = [1; 12; 19; 20; 26; 27]%Z
  ∧ (positions <$> state_after
       (add_node "A" (Ring 2 (λ _, 2 ^ 64 - 1)%Z 1 [] ∅ ∅)))
     = Some [0; 2 ^ 64 - 1]%Z.
Proof. vm_compute. done. Qed.

(** ** The ring walk of [get_nodes_for_key] *)

Lemma ring_inv_owner_registered (r : ring) j p :
  ring_inv r → positions r !! j = Some p →
  ∃ node, vnode_to_node r !! p = Some node ∧ node ∈ dom (node_to_vnodes r).
Proof.
  intros [(Hs & Hkeys & Hown) _ _ _] Hj.
  destruct (proj1 (Hkeys p)) as [node Hnode]; [by eapply list_elem_of_lookup_2|].
  exists node. split; [done|]. apply Hown in Hnode as (vs & Hvs & _).
  by apply elem_of_dom.
Qed.

Lemma ring_inv_registered_owner (r : ring) node :
  ring_inv r → node ∈ dom (node_to_vnodes r) →
  ∃ j p, positions r !! j = Some p ∧ vnode_to_node r !! p = Some node.
Proof.
  intros [(Hs & Hkeys & Hown) Hv Hrpn _] [vs Hvs]%elem_of_dom.
  pose proof (Hv node vs Hvs) as Hlen.
  destruct vs as [|p vs]; [simpl in Hlen; lia|].
  assert (vnode_to_node r !! p = Some node) as Hp
    by (apply Hown; exists (p :: vs); split; [done|by left]).
  assert (p ∈ positions r) as [j Hj]%list_elem_of_lookup_1
    by (apply Hkeys; eauto).
  eauto.
Qed.

Lemma ring_inv_nonempty (r : ring) :
  ring_inv r → (positions r ≠ [] ↔ node_to_vnodes r ≠ ∅).
Proof.
  intros Hinv. split.
  - intros Hne Hemp. destruct (positions r) as [|p ps] eqn:Hps; [done|].
    destruct (ring_inv_owner_registered r 0 p Hinv) as (node & _ & Hreg);
      [by rewrite Hps|].
    rewrite Hemp, dom_empty_L in Hreg. by apply not_elem_of_empty in Hreg.
  - intros Hne Hemp. apply Hne. apply map_empty. intros node.
    destruct (node_to_vnodes r !! node) as [vs|] eqn:Hnode; [|done].
    destruct (ring_inv_registered_owner r node Hinv) as (j & p & Hj & _).
    + apply elem_of_dom. eauto.
    + by rewrite Hemp, lookup_nil in Hj.
Qed.

Lemma walk_index_step (L idx d : nat) :
  0 < L → ((idx + 1) `mod` L + d) `mod` L = (idx + S d) `mod` L.
Proof.
  intros HL. rewrite Nat.Div0.add_mod_idemp_l. f_equal. lia.
Qed.

Lemma walk_index_cover (L idx j : nat) :
  idx < L → j < L → ∃ d, d < L ∧ j = (idx + d) `mod` L.
Proof.
  intros Hidx Hj. destruct (decide (idx ≤ j)).
  - exists (j - idx). split; [lia|].
    replace (idx + (j - idx)) with j by lia. by rewrite Nat.mod_small.
  - exists (L - idx + j). split; [lia|].
    replace (idx + (L - idx + j)) with (j + 1 * L) by lia.
    by rewrite Nat.Div0.mod_add, Nat.mod_small.
Qed.

(** The loop invariant: [seen] is the set of [chosen], which has no
    duplicates, only registered nodes and at most [replication_factor]
    entries; the owners of all positions but the next [rem] ones are in
    [seen].  With [rem] iterations left to go the loop returns. *)
Lemma walk_returns (r : ring) (rem n idx : nat)
    (chosen : list string) (seen : gset string) :
  ring_inv r → rem ≤ n → idx < length (positions r) →
  seen = list_to_set chosen → NoDup chosen →
  (∀ x, x ∈ chosen → x ∈ dom (node_to_vnodes r)) →
  length chosen ≤ replication_factor r →
  (∀ j p node, positions r !! j = Some p → vnode_to_node r !! p = Some node →
     (∀ d, d < rem → j ≠ (idx + d) `mod` length (positions r)) → node ∈ seen) →
  ∃ nodes : list string,
    walk n r idx chosen seen = Return nodes
    ∧ length nodes = replication_factor r `min` size (node_to_vnodes r)
    ∧ NoDup nodes
    ∧ (∀ x, x ∈ nodes → x ∈ dom (node_to_vnodes r))
    ∧ chosen `prefix_of` nodes.
Proof.
  intros Hinv. revert n idx chosen seen.
  assert (∀ (chosen : list string), NoDup chosen →
    (∀ x, x ∈ chosen → x ∈ dom (node_to_vnodes r)) →
    length chosen ≤ size (node_to_vnodes r)) as Hbound.
  { intros chosen Hnd Hreg.
    rewrite <-size_dom, <-(size_list_to_set (C := gset string) chosen) by done.
    apply subseteq_size. intros x Hx%elem_of_list_to_set. by apply Hreg. }
  induction rem as [|rem IH]; intros n idx chosen seen Hn Hidx -> Hnd Hreg Hrf Hcov.
  - assert (size (node_to_vnodes r) ≤ length chosen) as Hall.
    { rewrite <-size_dom, <-(size_list_to_set (C := gset string) chosen) by done.
      apply subseteq_size. intros node Hnode.
      destruct (ring_inv_registered_owner r node Hinv Hnode) as (j & p & Hj & Hp).
      apply (Hcov j p node Hj Hp). intros d Hd. lia. }
    pose proof (Hbound chosen Hnd Hreg).
    exists chosen. split_and!; [|lia|done..].
    destruct n; simpl; rewrite decide_False; try done;
      rewrite size_list_to_set by done; lia.
  - pose proof (Hbound chosen Hnd Hreg) as Hle.
    destruct (decide (length chosen < replication_factor r
                      ∧ size (list_to_set (C := gset string) chosen)
                        < size (node_to_vnodes r))) as [Hgo|Hstop].
    2: { exists chosen. split_and!; [| |done..].
         - destruct n; simpl; by rewrite decide_False.
         - rewrite size_list_to_set in Hstop by done. lia. }
    destruct n as [|n]; [lia|]. simpl. rewrite decide_True by done.
    destruct (lookup_lt_is_Some_2 (positions r) idx Hidx) as [pos Hpos].
    rewrite Hpos.
    destruct (ring_inv_owner_registered r idx pos Hinv Hpos)
      as (node & Hnode & Hnreg).
    rewrite Hnode.
    assert (0 < length (positions r)) as HL by lia.
    pose proof (Nat.mod_upper_bound (idx + 1) (length (positions r))
                  ltac:(lia)) as Hidx'.
    case_decide as Hseen.
    + apply IH; [lia|done|done|done|done|done|].
      intros j p node' Hj Hp Hfar.
      destruct (decide (j = idx)) as [->|Hne].
      * by simplify_eq.
      * apply (Hcov j p node' Hj Hp). intros [|d] Hd.
        -- rewrite Nat.add_0_r, Nat.mod_small by done. done.
        -- rewrite <-walk_index_step by done. apply Hfar. lia.
    + rewrite elem_of_list_to_set in Hseen.
      destruct (IH n ((idx + 1) `mod` length (positions r))
                  (chosen ++ [node]) ({[node]} ∪ list_to_set chosen))
        as (nodes & Hw & Hlen & Hnd' & Hreg' & Hpre).
      * lia.
      * done.
      * rewrite list_to_set_app_L. simpl.
        by rewrite (right_id_L ∅ (∪)), (comm_L (∪)).
      * apply NoDup_app. split_and!; [done| |apply NoDup_singleton].
        intros x Hx ->%list_elem_of_singleton. done.
      * intros x [Hx| ->%list_elem_of_singleton]%elem_of_app; [by apply Hreg|done].
      * rewrite length_app. simpl. lia.
      * intros j p node' Hj Hp Hfar.
        destruct (decide (j = idx)) as [->|Hne].
        -- simplify_eq. by apply elem_of_union_l, elem_of_singleton.
        -- apply elem_of_union_r, (Hcov j p node' Hj Hp). intros [|d] Hd.
           ++ rewrite Nat.add_0_r, Nat.mod_small by done. done.
           ++ rewrite <-walk_index_step by done. apply Hfar. lia.
      * exists nodes. split_and!; [done..|].
        etrans; [|done]. by apply prefix_app_r.
Qed.

Lemma find_vnode_index_lt (r : ring) (key_hash : Z) :
  ring_inv r → positions r ≠ [] →
  ∃ idx, _find_vnode_index key_hash r = Return idx ∧ idx < length (positions r).
Proof.
  intros [(Hs & _) _ _ _] Hne. unfold _find_vnode_index.
  rewrite decide_False by done.
  destruct (bisect_left_spec (positions r) key_hash (sorted_lt_le _ Hs))
    as (Hlen & _).
  assert (0 < length (positions r)) by (destruct (positions r); [done|simpl; lia]).
  case_decide; eexists; (split; [done|lia]).
Qed.

Lemma get_nodes_for_key_returns (key : string) (r : ring) :
  ring_inv r → node_to_vnodes r ≠ ∅ →
  ∃ nodes : list string,
    get_nodes_for_key key r = Return nodes
    ∧ length nodes = replication_factor r `min` size (node_to_vnodes r)
    ∧ NoDup nodes
    ∧ (∀ x, x ∈ nodes → x ∈ dom (node_to_vnodes r)).
Proof.
  intros Hinv Hn2v.
  assert (positions r ≠ []) as Hne by by apply ring_inv_nonempty.
  unfold get_nodes_for_key. rewrite decide_False by done.
  destruct (find_vnode_index_lt r (hash r key) Hinv Hne) as (idx & -> & Hidx).
  simpl.
  assert (size (node_to_vnodes r) ≠ 0) by by apply map_size_non_empty_iff.
  destruct (walk_returns r (length (positions r))
              (length (positions r) * size (node_to_vnodes r)) idx [] ∅)
    as (nodes & Hw & Hlen & Hnd & Hreg & _); try done.
  - nia.
  - constructor.
  - by intros x ?%elem_of_nil.
  - destruct Hinv. simpl. lia.
  - intros j p node Hj _ Hfar. apply lookup_lt_Some in Hj.
    destruct (walk_index_cover _ idx j Hidx Hj) as (d & Hd & ->).
    by destruct (Hfar d Hd).
  - by exists nodes.
Qed.

(** C1: on a reachable ring with at least one node, [get_nodes_for_key]
    returns, for every key, a list of
    [min(replication_factor, len(node_to_vnodes))] entries. *)
Theorem get_nodes_for_key_length (key : string) (r : ring) :
  reachable r → node_to_vnodes r ≠ ∅ →
  ∃ nodes : list string,
    get_nodes_for_key key r = Return nodes
    ∧ length nodes = replication_factor r `min` size (node_to_vnodes r).
Proof.
  intros Hr%reachable_ring_inv Hne.
  destruct (get_nodes_for_key_returns key r Hr Hne) as (nodes & ? & ? & _).
  by exists nodes.
Qed.

Lemma ringABC_registered : node_to_vnodes ringABC ≠ ∅.
Proof.
  intros Heq. apply (f_equal (λ m : gmap string (list Z), m !! "A")) in Heq.
  vm_compute in Heq. discriminate Heq.
Defined.

Lemma get_nodes_for_key_length_witness :
  ∃ nodes : list string,
    get_nodes_for_key "key-1" ringABC = Return nodes
    ∧ length nodes = replication_factor ringABC `min` size (node_to_vnodes ringABC).
Proof.
  apply (get_nodes_for_key_length "key-1" ringABC).
  - apply reachable_ringABC.
  - apply ringABC_registered.
Defined.

(** C8: on a reachable ring with at least one node, the list
    [get_nodes_for_key] returns has no identifier twice, and its entries are
    registered nodes. *)
Theorem get_nodes_for_key_distinct (key : string) (r : ring) :
  reachable r → node_to_vnodes r ≠ ∅ →
  ∃ nodes : list string,
    get_nodes_for_key key r = Return nodes
    ∧ NoDup nodes
    ∧ (∀ x, x ∈ nodes → x ∈ dom (node_to_vnodes r)).
Proof.
  intros Hr%reachable_ring_inv Hne.
  destruct (get_nodes_for_key_returns key r Hr Hne) as (nodes & ? & _ & ? & ?).
  by exists nodes.
Qed.

Lemma get_nodes_for_key_distinct_witness :
  ∃ nodes : list string,
    get_nodes_for_key "key-1" ringABC = Return nodes
    ∧ NoDup nodes
    ∧ (∀ x, x ∈ nodes → x ∈ dom (node_to_vnodes ringABC)).
Proof.
  apply (get_nodes_for_key_distinct "key-1" ringABC).
  - apply reachable_ringABC.
  - apply ringABC_registered.
Defined.

Example get_nodes_for_key_walk :
  get_nodes_for_key "key-1" ringABC = Return ["A"; "B"]
  ∧ get_nodes_for_key "zz" ringAC = Return ["A"; "C"]
  ∧ get_nodes_for_key "zz" ringA = Return ["A"]
  ∧ get_nodes_for_key "zz" ring0 = Raise EmptyRing.
Proof. vm_compute. done. Qed.

(** ** The primary node *)

Lemma get_primary_node_returns (key : string) (r : ring) :
  ring_inv r → node_to_vnodes r ≠ ∅ →
  ∃ node, get_primary_node key r = Return node
    ∧ node ∈ dom (node_to_vnodes r).
Proof.
  intros Hinv Hne. unfold get_primary_node.
  destruct (get_nodes_for_key_returns key r Hinv Hne)
    as (nodes & -> & Hlen & _ & Hreg).
  simpl. assert (size (node_to_vnodes r) ≠ 0) by by apply map_size_non_empty_iff.
  destruct Hinv as [_ _ _ Hrf].
  destruct nodes as [|node nodes]; [simpl in Hlen; lia|].
  exists node. split; [done|]. apply Hreg. by left.
Qed.

(** C9: [get_primary_node] raises the EmptyRing condition when [positions]
    is empty; on a freshly constructed ring [add_node x] returns (for up to
    [2^64] replicas), and after it [get_primary_node] returns [x] for every
    key.  The same holds from any reachable ring without nodes. *)
Theorem get_primary_node_emptiness (key x : string) (r r' : ring) :
  (positions r = [] → get_primary_node key r = Raise EmptyRing)
  ∧ (reachable r → node_to_vnodes r = ∅ → add_node x r = Done r' →
     get_primary_node key r' = Return x)
  ∧ (∀ rpn h rf, new_ring rpn h rf = Return r →
     node_to_vnodes r = ∅
     ∧ ((Z.of_nat rpn ≤ 2 ^ 64)%Z → ∃ r1, add_node x r = Done r1)).
Proof.
  split_and!.
  - intros Hp. unfold get_primary_node, get_nodes_for_key. by rewrite Hp.
  - intros Hr Hemp Hadd.
    assert (ring_inv r') as Hinv
      by (eapply ring_inv_add_node; [by apply reachable_ring_inv|done]).
    assert (node_to_vnodes r' = <[x := default [] (node_to_vnodes r' !! x)]> ∅)
      as Hn2v.
    { revert Hadd. unfold add_node. rewrite Hemp, lookup_empty.
      destruct (add_node_loop _ _ _ _ _ _) as [[[ps v2n] vs]|]; [|done].
      intros [= <-]. simpl. by rewrite lookup_insert_eq. }
    destruct (get_primary_node_returns key r' Hinv) as (node & -> & Hnode).
    + rewrite Hn2v. apply insert_non_empty.
    + rewrite Hn2v, dom_insert_L, dom_empty_L in Hnode.
      apply elem_of_union in Hnode as [->%elem_of_singleton|[]%not_elem_of_empty].
      done.
  - intros rpn h rf Hnew. unfold new_ring in Hnew.
    destruct (0 <? rpn), (0 <? rf); simplify_eq/=.
    split; [done|]. intros Hsz. apply add_node_total; simpl; [done|].
    by rewrite map_size_empty.
Qed.

Lemma get_primary_node_emptiness_witness :
  get_primary_node "key-1" ring0 = Raise EmptyRing
  ∧ get_primary_node "key-1" ringA = Return "A"
  ∧ ∃ r1, add_node "A" ring0 = Done r1.
Proof.
  destruct (get_primary_node_emptiness "key-1" "A" ring0 ringA) as (H1 & H2 & H3).
  split_and!.
  - apply H1. reflexivity.
  - apply H2; [apply reachable_ring0|reflexivity|vm_compute; reflexivity].
  - apply (H3 3 toy_hash 2); [reflexivity|vm_compute; discriminate].
Defined.

(** C10: two keys with the same hash get the same answer from
    [get_nodes_for_key], on any ring state. *)
Theorem get_nodes_for_key_hash_only (k1 k2 : string) (r : ring) :
  hash r k1 = hash r k2 → get_nodes_for_key k1 r = get_nodes_for_key k2 r.
Proof. intros Heq. unfold get_nodes_for_key. by rewrite Heq. Qed.

Lemma get_nodes_for_key_hash_only_witness :
  get_nodes_for_key "A#1" ringABC = get_nodes_for_key "B#0" ringABC.
Proof.
  apply (get_nodes_for_key_hash_only "A#1" "B#0" ringABC).
  vm_compute. reflexivity.
Defined.

(** ** Simulation helpers *)

Lemma counter_total_insert_fresh (dist : gmap string nat) (node : string) (c : nat) :
  dist !! node = None →
  counter_total (<[node := c]> dist) = c + counter_total dist.
Proof.
  intros Hn. unfold counter_total.
  rewrite map_fold_insert_L; [done| |done]. intros. lia.
Qed.

Lemma counter_total_incr (dist : gmap string nat) (node : string) :
  counter_total (counter_incr dist node) = counter_total dist + 1.
Proof.
  unfold counter_incr. destruct (dist !! node) as [c|] eqn:Hn; simpl.
  - rewrite <-(insert_delete_id dist node c Hn) at 2.
    rewrite <-insert_delete_eq.
    rewrite !counter_total_insert_fresh by apply lookup_delete_eq. lia.
  - rewrite counter_total_insert_fresh by done. lia.
Qed.

Lemma key_distribution_loop_total (r : ring) (keys : list string)
    (dist : gmap string nat) :
  ring_inv r → node_to_vnodes r ≠ ∅ →
  ∃ dist' : gmap string nat,
    key_distribution_loop r keys dist = Return dist'
    ∧ counter_total dist' = counter_total dist + length keys.
Proof.
  intros Hinv Hne. revert dist.
  induction keys as [|k keys IH]; intros dist; simpl.
  - exists dist. split; [done|lia].
  - destruct (get_primary_node_returns k r Hinv Hne) as (node & -> & _). simpl.
    destruct (IH (counter_incr dist node)) as (dist' & -> & Hsum).
    exists dist'. split; [done|]. rewrite Hsum, counter_total_incr. lia.
Qed.

(** C7: on a reachable ring with at least one node, [key_distribution]
    returns for every list of keys, empty or with repetitions, and the counts
    it returns add up to the length of the list. *)
Theorem key_distribution_sum (keys : list string) (r : ring) :
  reachable r → node_to_vnodes r ≠ ∅ →
  ∃ dist : gmap string nat,
    key_distribution keys r = Return dist
    ∧ counter_total dist = length keys.
Proof.
  intros Hr%reachable_ring_inv Hne. unfold key_distribution.
  destruct (key_distribution_loop_total r keys ∅ Hr Hne) as (dist & -> & Hsum).
  exists dist. split; [done|]. rewrite Hsum. unfold counter_total.
  by rewrite map_fold_empty.
Qed.

Lemma key_distribution_sum_witness :
  ∃ dist : gmap string nat,
    key_distribution ["a"; "b"; "a"; "key-1"; "zz"] ringABC = Return dist
    ∧ counter_total dist = length ["a"; "b"; "a"; "key-1"; "zz"].
Proof.
  apply (key_distribution_sum ["a"; "b"; "a"; "key-1"; "zz"] ringABC).
  - apply reachable_ringABC.
  - apply ringABC_registered.
Defined.

Example key_distribution_counts :
  key_distribution ["a"; "b"; "a"; "key-1"; "zz"] ringABC
  = Return {[ "A" := 3; "C" := 2 ]}
  ∧ key_distribution [] ring0 = Return ∅
  ∧ key_distribution ["a"] ring0 = Raise EmptyRing.
Proof. vm_compute. done. Qed.

Lemma moved_count_cons (r : ring) (old_mapping : gmap string string)
    (k : string) (keys : list string) :
  moved_count r old_mapping (k :: keys)
  = (if key_moved r old_mapping k then 1 else 0) + moved_count r old_mapping keys.
Proof.
  unfold moved_count. rewrite filter_cons.
  destruct (key_moved r old_mapping k); by case_decide.
Qed.

Lemma moved_count_le (r : ring) (old_mapping : gmap string string)
    (keys : list string) :
  moved_count r old_mapping keys ≤ length keys.
Proof. apply length_filter. Qed.

Lemma moved_keys_loop_returns (r : ring) (old_mapping : gmap string string)
    (keys : list string) (moved total : nat) :
  ring_inv r → node_to_vnodes r ≠ ∅ →
  moved_keys_loop r old_mapping keys moved total
  = Return (moved + moved_count r old_mapping keys, total + length keys).
Proof.
  intros Hinv Hne. revert moved total.
  induction keys as [|k keys IH]; intros moved total.
  - simpl. unfold moved_count. simpl. do 2 f_equal; lia.
  - cbn [moved_keys_loop]. rewrite moved_count_cons. unfold key_moved.
    destruct (get_primary_node_returns k r Hinv Hne) as (node & -> & _).
    cbn [mbind result_bind]. case_decide as Hm.
    + rewrite IH, bool_decide_true by done. simpl. do 2 f_equal; lia.
    + rewrite IH, bool_decide_false by (intros Hn; by apply Hn).
      simpl. do 2 f_equal; lia.
Qed.

Lemma ratio_bounds (moved total : nat) :
  moved ≤ total → 0 < total →
  (0 <= inject_Z (Z.of_nat moved) / inject_Z (Z.of_nat total))%Q
  ∧ (inject_Z (Z.of_nat moved) / inject_Z (Z.of_nat total) <= 1)%Q.
Proof.
  intros Hle Hpos.
  assert (0 < inject_Z (Z.of_nat total))%Q as Ht
    by (rewrite <-(Zlt_Qlt 0); lia).
  split.
  - apply Qle_shift_div_l; [done|]. rewrite Qmult_0_l.
    rewrite <-(Zle_Qle 0). lia.
  - apply Qle_shift_div_r; [done|]. rewrite Qmult_1_l.
    rewrite <-Zle_Qle. lia.
Qed.

(** C6: with no keys [moved_keys_ratio] returns [0.0] on any ring; on a
    reachable ring with at least one node it returns, for every key list and
    old mapping, the quotient of the number of moved keys by the number of
    keys, between 0 and 1, where a key is moved iff the old mapping has no
    entry for it or an entry other than its current primary node.  The float
    is the exact quotient in this model. *)
Theorem moved_keys_ratio_spec (keys : list string)
    (old_mapping : gmap string string) (r : ring) :
  (reachable r ∧ node_to_vnodes r ≠ ∅) ∨ keys = [] →
  ∃ q : Q,
    moved_keys_ratio keys old_mapping r = Return q
    ∧ (keys = [] → q = 0%Q)
    ∧ (keys ≠ [] →
       q = (inject_Z (Z.of_nat (moved_count r old_mapping keys))
            / inject_Z (Z.of_nat (length keys)))%Q)
    ∧ (0 <= q)%Q ∧ (q <= 1)%Q
    ∧ (∀ k, k ∈ keys →
       ∃ node, get_primary_node k r = Return node
         ∧ (key_moved r old_mapping k = true ↔
            old_mapping !! k = None
            ∨ ∃ node', old_mapping !! k = Some node' ∧ node' ≠ node)).
Proof.
  intros [[Hr%reachable_ring_inv Hne]| ->].
  - unfold moved_keys_ratio. rewrite moved_keys_loop_returns by done.
    cbn [mbind result_bind]. rewrite !Nat.add_0_l.
    eexists. split; [done|]. split_and!.
    + intros ->. done.
    + intros Hk. rewrite decide_False; [done|]. by destruct keys.
    + case_decide; [done|].
      apply ratio_bounds; [apply moved_count_le|lia].
    + case_decide; [done|].
      apply ratio_bounds; [apply moved_count_le|lia].
    + intros k _. unfold key_moved.
      destruct (get_primary_node_returns k r Hr Hne) as (node & -> & _).
      exists node. split; [done|]. rewrite bool_decide_eq_true.
      destruct (old_mapping !! k) as [node'|]; split.
      * intros Hd. right. exists node'. split; [done|congruence].
      * intros [?|(? & [= <-] & ?)]; [done|congruence].
      * by left.
      * done.
  - exists 0%Q. split_and!; try done. intros k Hk. by apply elem_of_nil in Hk.
Qed.

Lemma moved_keys_ratio_spec_witness :
  ∃ q : Q,
    moved_keys_ratio ["a"; "b"; "zz"] {[ "a" := "A"; "b" := "A" ]} ringABC
    = Return q
    ∧ (["a"; "b"; "zz"] = [] → q = 0%Q)
    ∧ (["a"; "b"; "zz"] ≠ [] →
       q = (inject_Z (Z.of_nat
              (moved_count ringABC {[ "a" := "A"; "b" := "A" ]} ["a"; "b"; "zz"]))
            / inject_Z (Z.of_nat (length ["a"; "b"; "zz"])))%Q)
    ∧ (0 <= q)%Q ∧ (q <= 1)%Q
    ∧ (∀ k, k ∈ ["a"; "b"; "zz"] →
       ∃ node, get_primary_node k ringABC = Return node
         ∧ (key_moved ringABC {[ "a" := "A"; "b" := "A" ]} k = true ↔
            ({[ "a" := "A"; "b" := "A" ]} : gmap string string) !! k = None
            ∨ ∃ node', ({[ "a" := "A"; "b" := "A" ]} : gmap string string) !! k
                       = Some node' ∧ node' ≠ node)).
Proof.
  apply (moved_keys_ratio_spec ["a"; "b"; "zz"] {[ "a" := "A"; "b" := "A" ]}
           ringABC).
  left. split; [apply reachable_ringABC|apply ringABC_registered].
Defined.

Example moved_keys_ratio_values :
  moved_keys_ratio ["a"; "b"; "zz"] {[ "a" := "A"; "b" := "A" ]} ringABC
  = Return (2 # 3)%Q
  ∧ moved_keys_ratio [] ∅ ring0 = Return 0%Q
  ∧ moved_keys_ratio ["a"] ∅ ring0 = Raise EmptyRing.
Proof. vm_compute. done. Qed.

(** ** The iteration bounds do not change a result *)

Lemma probe_fuel_mono n n' (m : gmap Z string) (pos p : Z) :
  probe n m pos = Some p → n ≤ n' → probe n' m pos = Some p.
Proof.
  revert n' pos. induction n as [|n IH]; intros n' pos; simpl; [done|].
  intros Hp Hn. destruct n' as [|n']; [lia|]. simpl.
  destruct (m !! pos); [|done]. apply IH; [done|lia].
Qed.

Lemma walk_fuel_mono n n' (r : ring) (idx : nat) (chosen : list string)
    (seen : gset string) (res : result (list string)) :
  walk n r idx chosen seen = res → res ≠ Loops → n ≤ n' →
  walk n' r idx chosen seen = res.
Proof.
  revert n' idx chosen seen.
  induction n as [|n IH]; intros n' idx chosen seen Hw Hres Hn.
  - simpl in Hw. destruct n'; simpl; case_decide; congruence.
  - destruct n' as [|n']; [lia|]. simpl in *.
    case_decide; [|done].
    destruct (positions r !! idx) as [pos|]; [|done].
    destruct (vnode_to_node r !! pos) as [node|]; [|done].
    case_decide; apply IH; (done || lia).
Qed.

(** ** The iteration bounds are never what decides a result

    [probe] answers [None] only when every candidate the loop would ever
    try is taken, and [walk] answers [Loops] only when no number of
    iterations ends the loop. *)

Lemma probe_all_taken n (m : gmap Z string) (pos : Z) :
  (∀ j, is_Some (m !! Nat.iter j next_pos pos)) → probe n m pos = None.
Proof.
  revert pos. induction n as [|n IH]; intros pos Hall; simpl; [done|].
  destruct (Hall 0) as [v Hv]. simpl in Hv. rewrite Hv.
  apply IH. intros j. rewrite <-Nat.iter_succ_r. apply Hall.
Qed.

Lemma probe_bound_adequate n (m : gmap Z string) (pos : Z) :
  probe (S (size m)) m pos = None → probe n m pos = None.
Proof.
  intros Hp. apply probe_all_taken. intros j.
  pose proof (probe_exhausted _ _ _ Hp) as Hocc.
  assert (2 ^ 64 ≤ Z.of_nat (size m))%Z as Hfull.
  { destruct (decide (Z.of_nat (size m) < 2 ^ 64)%Z) as [Hlt|]; [|lia].
    destruct (probe_total m pos Hlt) as [p Hsome]. congruence. }
  destruct j as [|j]; [apply (Hocc 0); lia|].
  set (k := Z.to_nat (Z.of_nat j `mod` 2 ^ 64)).
  pose proof (Z.mod_pos_bound (Z.of_nat j) (2 ^ 64) ltac:(lia)) as Hk.
  replace (Nat.iter (S j) next_pos pos) with (Nat.iter (S k) next_pos pos).
  { apply Hocc. lia. }
  rewrite !iter_next_pos.
  replace (Z.of_nat (S k)) with (Z.of_nat j `mod` 2 ^ 64 + 1)%Z by lia.
  replace (Z.of_nat (S j)) with (Z.of_nat j + 1)%Z by lia.
  rewrite !Z.add_assoc.
  rewrite <-(Zplus_mod_idemp_l (pos + Z.of_nat j `mod` 2 ^ 64)).
  rewrite Zplus_mod_idemp_r.
  by rewrite Zplus_mod_idemp_l.
Qed.

Lemma walk_exit n (r : ring) (idx : nat) (chosen : list string)
    (seen : gset string) :
  ¬ (length chosen < replication_factor r
     ∧ size seen < size (node_to_vnodes r)) →
  walk n r idx chosen seen = Return chosen.
Proof. intros Hc. destruct n; cbn [walk]; by rewrite decide_False. Qed.

(** Once the owner of every position is in [seen], no iteration adds a node
    and the test stays true. *)
Lemma walk_stuck n (r : ring) (idx : nat) (chosen : list string)
    (seen : gset string) :
  (∀ j, j < length (positions r) →
     ∃ pos node, positions r !! j = Some pos
       ∧ vnode_to_node r !! pos = Some node ∧ node ∈ seen) →
  length chosen < replication_factor r
  ∧ size seen < size (node_to_vnodes r) →
  idx < length (positions r) →
  walk n r idx chosen seen = Loops.
Proof.
  intros Hall Hc. revert idx.
  induction n as [|n IH]; intros idx Hidx; cbn [walk]; rewrite decide_True by done.
  - done.
  - destruct (Hall idx Hidx) as (pos & node & -> & -> & Hin).
    rewrite decide_True by done. apply IH. apply Nat.mod_upper_bound. lia.
Qed.

(** A run that ends has fewer than [len(positions)] iterations in a row that
    add no node: with [g] such iterations behind it since position [s], it
    ends within [len(positions) * (len(node_to_vnodes) - len(seen)) - g]
    more. *)
Lemma walk_within n (r : ring) (s g : nat) (chosen : list string)
    (seen : gset string) (res : result (list string)) :
  s < length (positions r) → g ≤ length (positions r) →
  (∀ d, d < g →
     ∃ pos node, positions r !! ((s + d) `mod` length (positions r)) = Some pos
       ∧ vnode_to_node r !! pos = Some node ∧ node ∈ seen) →
  walk n r ((s + g) `mod` length (positions r)) chosen seen = res →
  res ≠ Loops →
  walk (length (positions r) * (size (node_to_vnodes r) - size seen) - g)
    r ((s + g) `mod` length (positions r)) chosen seen = res.
Proof.
  revert s g chosen seen.
  induction n as [|n IH]; intros s g chosen seen Hs Hg Hdead Hw Hres.
  - cbn [walk] in Hw. case_decide as Hc; [congruence|].
    by rewrite walk_exit.
  - destruct (decide (length chosen < replication_factor r
                      ∧ size seen < size (node_to_vnodes r))) as [Hc|Hc].
    2: { rewrite walk_exit in Hw by done. by rewrite walk_exit. }
    assert (0 < length (positions r)) as HL by lia.
    pose proof (Nat.mod_upper_bound (s + g) (length (positions r))
                  ltac:(lia)) as Hidx.
    destruct (decide (g = length (positions r))) as [->|Hgl].
    { rewrite walk_stuck in Hw; [congruence| |done|done].
      intros j Hj. destruct (walk_index_cover _ s j Hs Hj) as (d & Hd & ->).
      by apply Hdead. }
    set (F := length (positions r)
              * (size (node_to_vnodes r) - size seen) - g).
    assert (length (positions r) - g ≤ F) as HF by (unfold F; nia).
    destruct F as [|F'] eqn:HF'; [lia|].
    cbn [walk] in Hw |- *. rewrite decide_True in Hw |- * by done.
    set (idx := (s + g) `mod` length (positions r)) in *.
    destruct (positions r !! idx) as [pos|] eqn:Hpos; [|done].
    destruct (vnode_to_node r !! pos) as [node|] eqn:Hnode; [|done].
    case_decide as Hseen.
    + assert ((idx + 1) `mod` length (positions r)
              = (s + S g) `mod` length (positions r)) as Hnext.
      { unfold idx. rewrite Nat.Div0.add_mod_idemp_l. f_equal. lia. }
      rewrite Hnext in Hw |- *.
      replace F' with (length (positions r)
                       * (size (node_to_vnodes r) - size seen) - S g)
        by (unfold F in HF'; lia).
      apply IH; [done|lia| |done|done].
      intros d Hd. destruct (decide (d = g)) as [->|].
      * fold idx. eauto.
      * apply Hdead. lia.
    + set (idx' := (idx + 1) `mod` length (positions r)) in *.
      assert (idx' < length (positions r)) as Hidx'
        by (apply Nat.mod_upper_bound; lia).
      assert ((idx' + 0) `mod` length (positions r) = idx') as Hz
        by (by rewrite Nat.add_0_r, Nat.mod_small).
      rewrite <-Hz in Hw.
      apply IH in Hw; [|done|lia|intros; lia|done].
      rewrite Hz in Hw.
      eapply walk_fuel_mono; [done|done|].
      rewrite size_union, size_singleton by (by apply disjoint_singleton_l).
      unfold F in HF'. nia.
Qed.

Lemma walk_bound_adequate n (r : ring) (idx : nat)
    (res : result (list string)) :
  idx < length (positions r) →
  walk n r idx [] ∅ = res → res ≠ Loops →
  walk (length (positions r) * size (node_to_vnodes r)) r idx [] ∅ = res.
Proof.
  intros Hidx Hw Hres.
  pose proof (walk_within n r idx 0 [] ∅ res Hidx ltac:(lia)) as Hin.
  rewrite Nat.add_0_r, Nat.mod_small, size_empty, !Nat.sub_0_r in Hin by done.
  apply Hin; [intros; lia|done|done].
Qed.

(** * Further properties of the code *)

(** ** The primary node is the owner of the clockwise successor *)

Lemma walk_prefix n (r : ring) (idx : nat) (chosen : list string)
    (seen : gset string) (nodes : list string) :
  walk n r idx chosen seen = Return nodes → chosen `prefix_of` nodes.
Proof.
  revert idx chosen seen. induction n as [|n IH]; intros idx chosen seen;
    cbn [walk]; case_decide; try done; try (by intros [= <-]).
  destruct (positions r !! idx) as [pos|]; [|done].
  destruct (vnode_to_node r !! pos) as [node|]; [|done].
  case_decide; intros Hw%IH; [done|].
  etrans; [|done]. by apply prefix_app_r.
Qed.

Lemma walk_first n (r : ring) (idx : nat) (p : Z) (node : string)
    (nodes : list string) :
  walk n r idx [] ∅ = Return nodes →
  positions r !! idx = Some p → vnode_to_node r !! p = Some node →
  0 < replication_factor r → node_to_vnodes r ≠ ∅ →
  nodes !! 0 = Some node.
Proof.
  intros Hw Hp Hnode Hrf Hne.
  assert (0 < size (node_to_vnodes r))
    by (apply map_size_non_empty_iff in Hne; lia).
  destruct n as [|n]; cbn [walk] in Hw;
    rewrite decide_True in Hw
      by (split; [simpl; lia|rewrite size_empty; lia]); [done|].
  rewrite Hp, Hnode, decide_False in Hw by apply not_elem_of_empty.
  apply walk_prefix in Hw as [rest ->]. done.
Qed.

Lemma find_vnode_index_successor (r : ring) (h : Z) :
  StronglySorted Z.lt (positions r) → positions r ≠ [] →
  ∃ idx p, _find_vnode_index h r = Return idx
    ∧ positions r !! idx = Some p
    ∧ clockwise_successor (positions r) h p.
Proof.
  intros Hs%sorted_lt_le Hne. unfold _find_vnode_index.
  rewrite decide_False by done.
  destruct (bisect_left_spec (positions r) h Hs) as (Hlen & Hlo & Hhi).
  assert (0 < length (positions r)) by (destruct (positions r); [done|simpl; lia]).
  case_decide as Hidx.
  - destruct (lookup_lt_is_Some_2 (positions r) 0) as [p Hp]; [lia|].
    exists 0, p. split_and!; [done|done|].
    split; [by eapply list_elem_of_lookup_2|].
    right. split.
    + intros q [j Hj]%list_elem_of_lookup_1. apply (Hlo j q); [|done].
      apply lookup_lt_Some in Hj. lia.
    + intros q [j Hj]%list_elem_of_lookup_1.
      eapply (sorted_le_lookup _ 0 j); [done|lia|done..].
  - set (idx := bisect_left (positions r) h) in *.
    destruct (lookup_lt_is_Some_2 (positions r) idx) as [p Hp]; [lia|].
    exists idx, p. split_and!; [done|done|].
    split; [by eapply list_elem_of_lookup_2|].
    left. split; [by apply (Hhi idx)|].
    intros q [j Hj]%list_elem_of_lookup_1 Hq.
    destruct (decide (j < idx)) as [Hlt|Hge].
    + specialize (Hlo j q Hlt Hj). lia.
    + eapply (sorted_le_lookup _ idx j); [done|lia|done..].
Qed.

Lemma clockwise_successor_unique (ps : list Z) (h p q : Z) :
  clockwise_successor ps h p → clockwise_successor ps h q → p = q.
Proof.
  intros [Hp [[Hhp Hpm]|[Hall Hpm]]] [Hq [[Hhq Hqm]|[Hall' Hqm]]].
  - specialize (Hpm q Hq Hhq). specialize (Hqm p Hp Hhp). lia.
  - specialize (Hall' p Hp). lia.
  - specialize (Hall q Hq). lia.
  - specialize (Hpm q Hq). specialize (Hqm p Hp). lia.
Qed.

Lemma clockwise_successor_subset (ps ps' : list Z) (h p : Z) :
  (∀ q, q ∈ ps → q ∈ ps') → p ∈ ps →
  clockwise_successor ps' h p → clockwise_successor ps h p.
Proof.
  intros Hsub Hp [_ [[Hhp Hpm]|[Hall Hpm]]]; (split; [done|]).
  - left. split; [done|]. intros q Hq. apply Hpm. by apply Hsub.
  - right. split; intros q Hq; [apply Hall|apply Hpm]; by apply Hsub.
Qed.

Lemma get_primary_node_successor (key : string) (r : ring) :
  ring_inv r → node_to_vnodes r ≠ ∅ →
  ∃ p node, clockwise_successor (positions r) (hash r key) p
    ∧ vnode_to_node r !! p = Some node
    ∧ get_primary_node key r = Return node.
Proof.
  intros Hinv Hne.
  assert (positions r ≠ []) as Hps by by apply ring_inv_nonempty.
  destruct (get_nodes_for_key_returns key r Hinv Hne) as (nodes & Hg & _).
  destruct (find_vnode_index_successor r (hash r key))
    as (idx & p & Hfind & Hp & Hsucc); [by destruct Hinv as [(? & _) _ _ _]|done|].
  destruct (ring_inv_owner_registered r idx p Hinv Hp) as (node & Hnode & _).
  exists p, node. split_and!; [done|done|].
  unfold get_primary_node. rewrite Hg. cbn [mbind result_bind].
  unfold get_nodes_for_key in Hg. rewrite decide_False, Hfind in Hg by done.
  cbn [mbind result_bind] in Hg.
  by rewrite (walk_first _ r idx p node nodes Hg Hp Hnode (ri_factor r Hinv) Hne).
Qed.

(** X1: on a reachable ring with at least one node, the primary node of a
    key is the owner of the smallest position [>= hash(key)], or of the
    smallest position of all when no position is that large. *)
Theorem primary_owns_clockwise_successor (key : string) (r : ring) :
  reachable r → node_to_vnodes r ≠ ∅ →
  ∃ p node, clockwise_successor (positions r) (hash r key) p
    ∧ vnode_to_node r !! p = Some node
    ∧ get_primary_node key r = Return node.
Proof. intros Hr%reachable_ring_inv. by apply get_primary_node_successor. Qed.

Lemma primary_owns_clockwise_successor_witness :
  ∃ p node, clockwise_successor (positions ringABC) (hash ringABC "zz") p
    ∧ vnode_to_node ringABC !! p = Some node
    ∧ get_primary_node "zz" ringABC = Return node.
Proof.
  apply (primary_owns_clockwise_successor "zz" ringABC).
  - apply reachable_ringABC.
  - apply ringABC_registered.
Defined.

(** ** What the mutators change, and what they leave alone *)

Lemma sorted_lt_NoDup (l : list Z) : StronglySorted Z.lt l → NoDup l.
Proof.
  induction 1 as [|z l Hs IH Hz]; constructor; [|done].
  rewrite Forall_forall in Hz. intros Hin%Hz. lia.
Qed.

Lemma sorted_lt_ext (l1 l2 : list Z) :
  StronglySorted Z.lt l1 → StronglySorted Z.lt l2 →
  (∀ x, x ∈ l1 ↔ x ∈ l2) → l1 = l2.
Proof.
  intros H1 H2 Hext. apply (StronglySorted_unique_strong Z.lt); [|done..|].
  - intros; lia.
  - apply NoDup_Permutation; [by apply sorted_lt_NoDup..|done].
Qed.

Lemma sorted_lt_filter (P : Z → Prop) `{∀ x, Decision (P x)} (l : list Z) :
  StronglySorted Z.lt l → StronglySorted Z.lt (filter P l).
Proof.
  induction 1 as [|z l Hs IH Hz]; [constructor|].
  rewrite filter_cons. case_decide; [|done].
  constructor; [done|]. rewrite Forall_forall in Hz |- *.
  intros y [_ Hy]%list_elem_of_filter. by apply Hz.
Qed.

Lemma insort_length (a : list Z) (x : Z) : length (insort a x) = S (length a).
Proof.
  unfold insort, list_insert_at.
  assert (length a = length (take (bisect_right a x) a)
                     + length (drop (bisect_right a x) a)) as Hlen
    by (by rewrite <-length_app, take_drop).
  rewrite length_app. simpl. lia.
Qed.

Lemma add_node_loop_length h x idxs ps v2n vnodes ps' v2n' vnodes' :
  add_node_loop h x idxs ps v2n vnodes = Some (ps', v2n', vnodes') →
  length ps' = length ps + length idxs.
Proof.
  revert ps v2n vnodes.
  induction idxs as [|idx0 idxs IH]; intros ps v2n vnodes; cbn [add_node_loop].
  - intros [= <- <- <-]. simpl. lia.
  - destruct (probe _ _ _) as [pos|]; [|done].
    intros Hloop%IH. rewrite Hloop, insort_length. simpl. lia.
Qed.

(** The state a returning [add_node] leaves, in terms of the list [new] of
    positions it placed. *)
Lemma add_node_done (x : string) (r r' : ring) :
  add_node x r = Done r' →
  ∃ new : list Z,
    node_to_vnodes r !! x = None
    ∧ node_to_vnodes r' = <[x := new]> (node_to_vnodes r)
    ∧ length new = replicas_per_node r ∧ NoDup new
    ∧ (∀ p, p ∈ new → vnode_to_node r !! p = None)
    ∧ (∀ p, vnode_to_node r' !! p
            = if decide (p ∈ new) then Some x else vnode_to_node r !! p)
    ∧ (∀ p, p ∈ positions r' ↔ p ∈ positions r ∨ p ∈ new)
    ∧ length (positions r') = length (positions r) + replicas_per_node r
    ∧ replicas_per_node r' = replicas_per_node r
    ∧ hash r' = hash r
    ∧ replication_factor r' = replication_factor r.
Proof.
  unfold add_node. destruct (node_to_vnodes r !! x) eqn:Hx; [done|].
  destruct (add_node_loop _ _ _ _ _ _) as [[[ps v2n] vs]|] eqn:Hloop; [|done].
  intros [= <-]. simpl.
  pose proof (add_node_loop_length _ _ _ _ _ _ _ _ _ Hloop) as Hlen'.
  apply add_node_loop_spec in Hloop as (new & -> & Hlen & Hmap & Hps & Hch).
  rewrite length_seq in Hlen, Hlen'. simpl.
  assert (∀ i p, new !! i = Some p →
            seq 0 (replicas_per_node r) !! i = Some i) as Hidx.
  { intros i p Hi%lookup_lt_Some. apply lookup_seq. lia. }
  exists new. split_and!; try done.
  - apply NoDup_fresh_prefix. intros i p Hi.
    by destruct (Hch i i p (Hidx i p Hi) Hi) as (_ & ? & _).
  - intros p [i Hi]%list_elem_of_lookup_1.
    by destruct (Hch i i p (Hidx i p Hi) Hi) as (? & _).
Qed.

(** The state a returning [remove_node] leaves. *)
Lemma remove_node_done (x : string) (r r' : ring) :
  StronglySorted Z.lt (positions r) → remove_node x r = Done r' →
  ∃ vs : list Z,
    node_to_vnodes r !! x = Some vs
    ∧ node_to_vnodes r' = delete x (node_to_vnodes r)
    ∧ (∀ p, vnode_to_node r' !! p
            = if decide (p ∈ vs) then None else vnode_to_node r !! p)
    ∧ StronglySorted Z.lt (positions r')
    ∧ (∀ p, p ∈ positions r' ↔ p ∈ positions r ∧ p ∉ vs)
    ∧ replicas_per_node r' = replicas_per_node r
    ∧ hash r' = hash r
    ∧ replication_factor r' = replication_factor r.
Proof.
  intros Hs. unfold remove_node.
  destruct (node_to_vnodes r !! x) as [vs|] eqn:Hx; [|done].
  destruct (remove_all_spec vs (positions r) (vnode_to_node r) Hs)
    as (Hs' & Hps & Hmap).
  destruct (foldl remove_pos _ vs) as [ps v2n]. simpl in *.
  intros [= <-]. simpl. exists vs. by split_and!.
Qed.

Lemma get_primary_node_registered (key : string) (r : ring) (a : string) :
  ring_inv r → get_primary_node key r = Return a → node_to_vnodes r ≠ ∅.
Proof.
  intros Hinv Hp. apply ring_inv_nonempty; [done|]. intros Hemp.
  unfold get_primary_node, get_nodes_for_key in Hp. by rewrite Hemp in Hp.
Qed.

Lemma add_node_primary_cases (key x a : string) (r r' : ring) :
  ring_inv r → add_node x r = Done r' → get_primary_node key r = Return a →
  get_primary_node key r' = Return a ∨ get_primary_node key r' = Return x.
Proof.
  intros Hinv Hadd Ha.
  pose proof (ring_inv_add_node x r r' Hinv Hadd) as Hinv'.
  pose proof (get_primary_node_registered key r a Hinv Ha) as Hne.
  destruct (add_node_done x r r' Hadd)
    as (new & Hx & Hn2v & _ & _ & Hfree & Hmap & Hps & _ & _ & Hhash & _).
  destruct (get_primary_node_successor key r Hinv Hne) as (p & n & Hs & Hn & Hp).
  destruct (get_primary_node_successor key r' Hinv')
    as (p' & n' & Hs' & Hn' & Hp'); [rewrite Hn2v; apply insert_non_empty|].
  assert (n = a) as -> by congruence.
  rewrite Hp'. rewrite Hmap in Hn'. rewrite Hhash in Hs'.
  case_decide as Hnew; [right; congruence|left].
  assert (p' ∈ positions r) as Hold.
  { destruct Hs' as [[?|?]%Hps _]; [done|by destruct Hnew]. }
  assert (p' = p) as ->.
  { apply (clockwise_successor_unique (positions r) (hash r key)); [|done].
    apply (clockwise_successor_subset _ (positions r')); [|done..].
    intros q Hq. apply Hps. by left. }
  congruence.
Qed.

(** X2: adding a node moves a key nowhere but to the new node: on a
    reachable ring, a key whose primary node was [a] has, after a returning
    [add_node x], primary node [a] or [x]. *)
Theorem add_node_moves_keys_to_new_node_only (key x a : string) (r r' : ring) :
  reachable r → add_node x r = Done r' → get_primary_node key r = Return a →
  get_primary_node key r' = Return a ∨ get_primary_node key r' = Return x.
Proof. intros Hinv%reachable_ring_inv. by apply add_node_primary_cases. Qed.

Lemma add_node_moves_keys_to_new_node_only_witness :
  get_primary_node "a" ringABC = Return "A"
  ∨ get_primary_node "a" ringABC = Return "C".
Proof.
  apply (add_node_moves_keys_to_new_node_only "a" "C" "A" ringAB ringABC).
  - apply (reachable_add_node "B" ringA); [apply reachable_ringA|].
    vm_compute. reflexivity.
  - vm_compute. reflexivity.
  - vm_compute. reflexivity.
Defined.

Lemma remove_node_primary_kept (key x a : string) (r r' : ring) :
  ring_inv r → remove_node x r = Done r' →
  get_primary_node key r = Return a → a ≠ x →
  get_primary_node key r' = Return a.
Proof.
  intros Hinv Hrem Ha Hax.
  pose proof (ring_inv_remove_node x r r' Hinv Hrem) as Hinv'.
  pose proof (get_primary_node_registered key r a Hinv Ha) as Hne.
  pose proof Hinv as [(Hsorted & Hkeys & Hown) _ _ _].
  destruct (remove_node_done x r r' Hsorted Hrem)
    as (vs & Hx & Hn2v & Hmap & _ & Hps & _ & Hhash & _).
  destruct (get_primary_node_successor key r Hinv Hne) as (p & n & Hs & Hn & Hp).
  assert (n = a) as -> by congruence.
  assert (p ∉ vs) as Hpvs.
  { intros Hin. assert (vnode_to_node r !! p = Some x) by (apply Hown; eauto).
    congruence. }
  assert (p ∈ positions r') as Hp' by (apply Hps; split; [by destruct Hs|done]).
  assert (node_to_vnodes r' ≠ ∅) as Hne'.
  { apply Hown in Hn as (vs' & Hvs' & _). intros Hemp.
    assert (node_to_vnodes r' !! a = Some vs') as Hl
      by (rewrite Hn2v; by apply lookup_delete_Some).
    by rewrite Hemp, lookup_empty in Hl. }
  destruct (get_primary_node_successor key r' Hinv' Hne')
    as (p'' & n'' & Hs'' & Hn'' & Hp'').
  rewrite Hhash in Hs''.
  assert (p'' = p) as ->.
  { apply (clockwise_successor_unique (positions r') (hash r key)); [done|].
    apply (clockwise_successor_subset _ (positions r)); [|done..].
    intros q Hq. by apply Hps in Hq as [? _]. }
  rewrite Hp''. rewrite Hmap, decide_False in Hn'' by done. congruence.
Qed.

(** X3: removing a node moves only the keys it owned: on a reachable ring, a
    key whose primary node [a] is not the removed node keeps [a] as primary
    node after a returning [remove_node x]. *)
Theorem remove_node_keeps_other_primaries (key x a : string) (r r' : ring) :
  reachable r → remove_node x r = Done r' →
  get_primary_node key r = Return a → a ≠ x →
  get_primary_node key r' = Return a.
Proof. intros Hinv%reachable_ring_inv. by apply remove_node_primary_kept. Qed.

Lemma remove_node_keeps_other_primaries_witness :
  get_primary_node "a" ringAC = Return "C".
Proof.
  apply (remove_node_keeps_other_primaries "a" "B" "C" ringABC ringAC).
  - apply reachable_ringABC.
  - vm_compute. reflexivity.
  - vm_compute. reflexivity.
  - discriminate.
Defined.

(** X4: [remove_node x] undoes [add_node x]: on a reachable ring, a
    returning [add_node x] followed by [remove_node x] returns and leaves
    the ring exactly as it was before the two calls. *)
Theorem add_then_remove_restores (x : string) (r r1 : ring) :
  reachable r → add_node x r = Done r1 → remove_node x r1 = Done r.
Proof.
  intros Hinv%reachable_ring_inv Hadd.
  pose proof (ring_inv_add_node x r r1 Hinv Hadd) as Hinv1.
  pose proof Hinv as [(Hsorted & Hkeys & Hown) _ _ _].
  pose proof Hinv1 as [(Hsorted1 & _) _ _ _].
  destruct (add_node_done x r r1 Hadd)
    as (new & Hx & Hn2v & _ & _ & Hfree & Hmap & Hps & _ & Hrpn & Hhash & Hrf).
  destruct (remove_node x r1) as [r2|e r2|] eqn:Hrem.
  - destruct (remove_node_done x r1 r2 Hsorted1 Hrem)
      as (vs & Hvs & Hn2v2 & Hmap2 & Hsorted2 & Hps2 & Hrpn2 & Hhash2 & Hrf2).
    rewrite Hn2v, lookup_insert_eq in Hvs. injection Hvs as <-.
    f_equal. destruct r2 as [rpn2 h2 rf2 ps2 v2n2 n2v2], r as [rpn h rf ps v2n n2v].
    simpl in *. subst rpn2 h2 rf2 n2v2. f_equal.
    + congruence.
    + congruence.
    + congruence.
    + apply sorted_lt_ext; [done..|]. intros p. rewrite Hps2, Hps. split.
      * intros [[?|?] ?]; [done|contradiction].
      * intros Hp. split; [by left|]. intros Hin%Hfree.
        apply Hkeys in Hp as [? ?]. congruence.
    + apply map_eq. intros p. rewrite Hmap2, Hmap.
      case_decide as Hin; [|done]. symmetry. by apply Hfree.
    + rewrite Hn2v. by apply delete_insert_id.
  - unfold remove_node in Hrem. rewrite Hn2v, lookup_insert_eq in Hrem.
    by destruct (foldl _ _ _).
  - unfold remove_node in Hrem. rewrite Hn2v, lookup_insert_eq in Hrem.
    by destruct (foldl _ _ _).
Qed.

Lemma add_then_remove_restores_witness : remove_node "C" ringABC = Done ringAB.
Proof.
  apply (add_then_remove_restores "C" ringAB ringABC).
  - apply (reachable_add_node "B" ringA); [apply reachable_ringA|].
    vm_compute. reflexivity.
  - vm_compute. reflexivity.
Defined.

Lemma reachable_ringAB : reachable ringAB.
Proof.
  apply (reachable_add_node "B" ringA); [apply reachable_ringA|].
  vm_compute. reflexivity.
Defined.

(** X5: on a reachable ring a returning [remove_node x] unregisters [x] and
    nothing else, takes out of [positions] and [vnode_to_node] exactly the
    positions that were mapped to [x], and keeps the order of the others. *)
Theorem remove_node_effect (x : string) (r r' : ring) :
  reachable r → remove_node x r = Done r' →
  node_to_vnodes r' = delete x (node_to_vnodes r)
  ∧ positions r'
    = filter (λ p, vnode_to_node r !! p ≠ Some x) (positions r)
  ∧ (∀ p, vnode_to_node r' !! p
          = if decide (vnode_to_node r !! p = Some x) then None
            else vnode_to_node r !! p).
Proof.
  intros Hinv%reachable_ring_inv Hrem.
  pose proof Hinv as [(Hsorted & Hkeys & Hown) _ _ _].
  destruct (remove_node_done x r r' Hsorted Hrem)
    as (vs & Hx & Hn2v & Hmap & Hsorted' & Hps & _).
  assert (∀ p, p ∈ vs ↔ vnode_to_node r !! p = Some x) as Hvs.
  { intros p. rewrite Hown. split; [by eauto|].
    intros (vs' & Hvs' & Hp). congruence. }
  split_and!; [done| |].
  - apply sorted_lt_ext; [done|by apply sorted_lt_filter|].
    intros p. rewrite Hps, list_elem_of_filter, Hvs. tauto.
  - intros p. rewrite Hmap.
    destruct (decide (p ∈ vs)) as [Hin|Hin].
    + by rewrite decide_True by by apply Hvs.
    + by rewrite decide_False by by rewrite <-Hvs.
Qed.

Lemma remove_node_effect_witness :
  node_to_vnodes ringAC = delete "B" (node_to_vnodes ringABC)
  ∧ positions ringAC
    = filter (λ p, vnode_to_node ringABC !! p ≠ Some "B") (positions ringABC)
  ∧ (∀ p, vnode_to_node ringAC !! p
          = if decide (vnode_to_node ringABC !! p = Some "B") then None
            else vnode_to_node ringABC !! p).
Proof.
  apply (remove_node_effect "B" ringABC ringAC).
  - apply reachable_ringABC.
  - vm_compute. reflexivity.
Defined.

(** X6: on any ring state a returning [add_node x] leaves every other
    node's list, every existing entry of [vnode_to_node] and every existing
    position in place, and makes [positions] longer by [replicas_per_node]. *)
Theorem add_node_frame (x : string) (r r' : ring) :
  add_node x r = Done r' →
  (∀ n, n ≠ x → node_to_vnodes r' !! n = node_to_vnodes r !! n)
  ∧ (∀ p n, vnode_to_node r !! p = Some n → vnode_to_node r' !! p = Some n)
  ∧ (∀ p, p ∈ positions r → p ∈ positions r')
  ∧ length (positions r') = length (positions r) + replicas_per_node r.
Proof.
  intros Hadd.
  destruct (add_node_done x r r' Hadd)
    as (new & Hx & Hn2v & _ & _ & Hfree & Hmap & Hps & Hlen & _).
  split_and!; [| | |done].
  - intros n Hn. rewrite Hn2v. by apply lookup_insert_ne.
  - intros p n Hp. rewrite Hmap. case_decide as Hin; [|done].
    apply Hfree in Hin. congruence.
  - intros p Hp. apply Hps. by left.
Qed.

Lemma add_node_frame_witness :
  (∀ n, n ≠ "C" → node_to_vnodes ringABC !! n = node_to_vnodes ringAB !! n)
  ∧ (∀ p n, vnode_to_node ringAB !! p = Some n →
            vnode_to_node ringABC !! p = Some n)
  ∧ (∀ p, p ∈ positions ringAB → p ∈ positions ringABC)
  ∧ length (positions ringABC)
    = length (positions ringAB) + replicas_per_node ringAB.
Proof.
  apply (add_node_frame "C" ringAB ringABC). vm_compute. reflexivity.
Defined.



(** ** [assign_keys] and [key_distribution] *)

Lemma primary_is_true (r : ring) (node k : string) :
  primary_is r node k = true ↔ get_primary_node k r = Return node.
Proof.
  unfold primary_is. destruct (get_primary_node k r) as [n| |]; [|done..].
  rewrite bool_decide_eq_true. split; congruence.
Qed.

Lemma assign_keys_loop_spec (r : ring) (keys : list string)
    (acc : gmap string (list string)) :
  ring_inv r → node_to_vnodes r ≠ ∅ →
  (∀ n, acc !! n ≠ Some []) →
  ∃ m : gmap string (list string),
    assign_keys_loop r keys acc = Return m
    ∧ (∀ n, default [] (m !! n)
            = default [] (acc !! n)
              ++ filter (λ k, primary_is r n k = true) keys)
    ∧ (∀ n, m !! n ≠ Some [])
    ∧ (∀ n, is_Some (m !! n) →
            is_Some (acc !! n) ∨ n ∈ dom (node_to_vnodes r)).
Proof.
  intros Hinv Hne. revert acc.
  induction keys as [|k keys IH]; intros acc Hacc; cbn [assign_keys_loop].
  - exists acc. split_and!; [done| |done|by left].
    intros n. by rewrite filter_nil, app_nil_r.
  - destruct (get_primary_node_returns k r Hinv Hne) as (node & Hnode & Hreg).
    rewrite Hnode. cbn [mbind result_bind].
    destruct (IH (<[node := default [] (acc !! node) ++ [k]]> acc))
      as (m & -> & Hm & Hnil & Hdom).
    { intros n. destruct (decide (n = node)) as [->|Hn].
      - rewrite lookup_insert_eq. intros [= Heq]. by destruct (default [] _).
      - by rewrite lookup_insert_ne. }
    exists m. split_and!; [done| |done|].
    + intros n. rewrite Hm, filter_cons.
      destruct (decide (n = node)) as [->|Hn].
      * rewrite lookup_insert_eq, decide_True by by apply primary_is_true.
        simpl. by rewrite <-app_assoc.
      * rewrite lookup_insert_ne, decide_False; [done| |done].
        rewrite primary_is_true, Hnode. congruence.
    + intros n Hn. destruct (Hdom n Hn) as [Hs|?]; [|by right].
      apply lookup_insert_is_Some in Hs as [<-|[_ ?]]; [by right|by left].
Qed.

(** X8: on a reachable ring with at least one node, [assign_keys] returns a
    dictionary in which each node's list is exactly the keys it is primary
    node of, in the order of the input; a node that is primary for no key has
    no entry, and every entry is a registered node. *)
Theorem assign_keys_groups_by_primary (keys : list string) (r : ring) :
  reachable r → node_to_vnodes r ≠ ∅ →
  ∃ m : gmap string (list string),
    assign_keys keys r = Return m
    ∧ (∀ n, default [] (m !! n) = filter (λ k, primary_is r n k = true) keys)
    ∧ (∀ n, m !! n ≠ Some [])
    ∧ dom m ⊆ dom (node_to_vnodes r).
Proof.
  intros Hinv%reachable_ring_inv Hne. unfold assign_keys.
  destruct (assign_keys_loop_spec r keys ∅ Hinv Hne)
    as (m & Hm & Hlists & Hnil & Hdom); [by intros n; rewrite lookup_empty|].
  exists m. split_and!; [done| |done|].
  - intros n. by rewrite Hlists, lookup_empty.
  - intros n Hn%elem_of_dom. destruct (Hdom n Hn) as [[? Hs]|?]; [|done].
    by rewrite lookup_empty in Hs.
Qed.

Lemma assign_keys_groups_by_primary_witness :
  ∃ m : gmap string (list string),
    assign_keys ["a"; "b"; "a"; "key-1"; "zz"] ringABC = Return m
    ∧ (∀ n, default [] (m !! n)
            = filter (λ k, primary_is ringABC n k = true)
                ["a"; "b"; "a"; "key-1"; "zz"])
    ∧ (∀ n, m !! n ≠ Some [])
    ∧ dom m ⊆ dom (node_to_vnodes ringABC).
Proof.
  apply (assign_keys_groups_by_primary ["a"; "b"; "a"; "key-1"; "zz"] ringABC).
  - apply reachable_ringABC.
  - apply ringABC_registered.
Defined.

Example assign_keys_lists :
  assign_keys ["a"; "b"; "a"; "key-1"; "zz"] ringABC
  = Return {[ "A" := ["b"; "key-1"; "zz"]; "C" := ["a"; "a"] ]}
  ∧ assign_keys [] ring0 = Return ∅
  ∧ assign_keys ["a"] ring0 = Raise EmptyRing.
Proof. vm_compute. done. Qed.

Lemma distribution_of_assignment_loop (r : ring) (keys : list string)
    (acc : gmap string (list string)) :
  key_distribution_loop r keys (length <$> acc)
  = match assign_keys_loop r keys acc with
    | Return m => Return (length <$> m)
    | Raise e => Raise e
    | Loops => Loops
    end.
Proof.
  revert acc. induction keys as [|k keys IH]; intros acc;
    cbn [key_distribution_loop assign_keys_loop]; [done|].
  destruct (get_primary_node k r) as [node|e|]; cbn [mbind result_bind];
    [|done..].
  rewrite <-IH. f_equal. unfold counter_incr.
  rewrite fmap_insert, lookup_fmap, length_app. simpl.
  by destruct (acc !! node).
Qed.

(** X9: on any ring state, [key_distribution] is [assign_keys] with every
    list replaced by its length: they raise together, and when they return
    the count of a node is the number of keys assigned to it. *)
Theorem key_distribution_counts_assignments (keys : list string) (r : ring) :
  key_distribution keys r
  = match assign_keys keys r with
    | Return m => Return (length <$> m)
    | Raise e => Raise e
    | Loops => Loops
    end.
Proof.
  unfold key_distribution, assign_keys.
  by rewrite <-distribution_of_assignment_loop, fmap_empty.
Qed.

Lemma key_distribution_count (keys : list string) (r : ring)
    (dist : gmap string nat) (n : string) :
  ring_inv r → node_to_vnodes r ≠ ∅ →
  key_distribution keys r = Return dist →
  default 0 (dist !! n) = length (filter (λ k, primary_is r n k = true) keys).
Proof.
  intros Hinv Hne. unfold key_distribution.
  rewrite <-(fmap_empty (length (A := string))), distribution_of_assignment_loop.
  destruct (assign_keys_loop_spec r keys ∅ Hinv Hne)
    as (m & -> & Hlists & _); [by intros ?; rewrite lookup_empty|].
  intros [= <-]. specialize (Hlists n). rewrite lookup_empty in Hlists.
  simpl in Hlists. rewrite lookup_fmap, <-Hlists.
  by destruct (m !! n).
Qed.

Lemma filter_ext_in {A} (P Q : A → Prop) `{∀ x, Decision (P x)}
    `{∀ x, Decision (Q x)} (l : list A) :
  (∀ x, x ∈ l → P x ↔ Q x) → filter P l = filter Q l.
Proof.
  induction l as [|x l IH]; intros Hext; [done|].
  rewrite !filter_cons.
  rewrite IH by (intros y Hy; apply Hext; by right).
  destruct (decide (P x)) as [HP|HP].
  - by rewrite decide_True by (apply Hext; [by left|done]).
  - rewrite decide_False; [done|]. intros HQ. apply HP, Hext; [by left|done].
Qed.

(** ** [moved_keys_ratio] against a baseline *)

Lemma moved_keys_ratio_value (keys : list string)
    (old_mapping : gmap string string) (r : ring) :
  ring_inv r → node_to_vnodes r ≠ ∅ → keys ≠ [] →
  moved_keys_ratio keys old_mapping r
  = Return (inject_Z (Z.of_nat (moved_count r old_mapping keys))
            / inject_Z (Z.of_nat (length keys)))%Q.
Proof.
  intros Hinv Hne Hk. unfold moved_keys_ratio.
  rewrite moved_keys_loop_returns by done.
  cbn [mbind result_bind]. rewrite !Nat.add_0_l.
  rewrite decide_False; [done|]. by destruct keys.
Qed.

Lemma moved_count_none (r : ring) (old_mapping : gmap string string)
    (keys : list string) :
  (∀ k, k ∈ keys → key_moved r old_mapping k = false) →
  moved_count r old_mapping keys = 0.
Proof.
  induction keys as [|k keys IH]; intros Hall; [done|].
  rewrite moved_count_cons, (Hall k) by by left.
  rewrite IH; [done|]. intros k' Hk'. apply Hall. by right.
Qed.

Lemma moved_count_all (r : ring) (old_mapping : gmap string string)
    (keys : list string) :
  (∀ k, k ∈ keys → key_moved r old_mapping k = true) →
  moved_count r old_mapping keys = length keys.
Proof.
  induction keys as [|k keys IH]; intros Hall; [done|].
  rewrite moved_count_cons, (Hall k) by by left.
  rewrite IH; [done|]. intros k' Hk'. apply Hall. by right.
Qed.

(** X10: a baseline taken from the ring itself gives a ratio of zero, and a
    baseline without the keys gives a ratio of one: on a reachable ring with
    at least one node and a non-empty key list, [moved_keys_ratio] returns
    [0] when [old_mapping] maps every key to its current primary node, and
    [1] when [old_mapping] has no entry for any of the keys. *)
Theorem moved_keys_ratio_extremes (keys : list string)
    (old_mapping : gmap string string) (r : ring) :
  reachable r → node_to_vnodes r ≠ ∅ → keys ≠ [] →
  ∃ q : Q,
    moved_keys_ratio keys old_mapping r = Return q
    ∧ ((∀ k, k ∈ keys →
          ∃ n, old_mapping !! k = Some n ∧ get_primary_node k r = Return n) →
       (q == 0)%Q)
    ∧ ((∀ k, k ∈ keys → old_mapping !! k = None) → (q == 1)%Q).
Proof.
  intros Hinv%reachable_ring_inv Hne Hk.
  rewrite moved_keys_ratio_value by done. eexists. split; [done|]. split.
  - intros Hbase. rewrite moved_count_none.
    + unfold Qdiv. by rewrite Qmult_0_l.
    + intros k (n & Hold & Hn)%Hbase. unfold key_moved. rewrite Hn.
      apply bool_decide_eq_false. by intros [].
  - intros Hnone. rewrite moved_count_all.
    + apply Qmult_inv_r. change 0%Q with (inject_Z 0). rewrite inject_Z_injective.
      destruct keys; [done|simpl; lia].
    + intros k Hin. unfold key_moved.
      destruct (get_primary_node_returns k r Hinv Hne) as (n & -> & _).
      apply bool_decide_eq_true. by rewrite (Hnone k Hin).
Qed.

Lemma moved_keys_ratio_extremes_witness :
  ∃ q : Q,
    moved_keys_ratio ["a"; "zz"] {[ "a" := "C"; "zz" := "A" ]} ringABC
    = Return q
    ∧ ((∀ k, k ∈ ["a"; "zz"] →
          ∃ n, ({[ "a" := "C"; "zz" := "A" ]} : gmap string string) !! k
               = Some n
            ∧ get_primary_node k ringABC = Return n) →
       (q == 0)%Q)
    ∧ ((∀ k, k ∈ ["a"; "zz"] →
          ({[ "a" := "C"; "zz" := "A" ]} : gmap string string) !! k = None) →
       (q == 1)%Q).
Proof.
  apply (moved_keys_ratio_extremes ["a"; "zz"] {[ "a" := "C"; "zz" := "A" ]}
           ringABC).
  - apply reachable_ringABC.
  - apply ringABC_registered.
  - discriminate.
Defined.

Example moved_keys_ratio_baseline :
  moved_keys_ratio ["a"; "zz"] {[ "a" := "C"; "zz" := "A" ]} ringABC
  = Return (0 # 2)%Q
  ∧ moved_keys_ratio ["a"; "zz"] ∅ ringABC = Return (2 # 2)%Q.
Proof. vm_compute. done. Qed.

(** X11: after a node is added, the keys that count as moved against the
    baseline taken before are the keys of the new node: on a reachable ring,
    with [old_mapping] mapping every key to its primary node before a
    returning [add_node x], [moved_keys_ratio] on the new ring returns the
    count [key_distribution] gives [x], divided by the number of keys. *)
Theorem moved_after_add_is_share_of_new_node (keys : list string)
    (old_mapping : gmap string string) (x : string) (r r' : ring) :
  reachable r → add_node x r = Done r' → keys ≠ [] →
  (∀ k, k ∈ keys →
     ∃ n, old_mapping !! k = Some n ∧ get_primary_node k r = Return n) →
  ∃ dist : gmap string nat,
    key_distribution keys r' = Return dist
    ∧ moved_keys_ratio keys old_mapping r'
      = Return (inject_Z (Z.of_nat (default 0%nat (dist !! x)))
                / inject_Z (Z.of_nat (length keys)))%Q.
Proof.
  intros Hinv%reachable_ring_inv Hadd Hk Hbase.
  pose proof (ring_inv_add_node x r r' Hinv Hadd) as Hinv'.
  destruct (add_node_done x r r' Hadd) as (new & Hx & Hn2v & _).
  assert (node_to_vnodes r' ≠ ∅) as Hne'
    by (rewrite Hn2v; apply insert_non_empty).
  destruct (key_distribution_loop_total r' keys ∅ Hinv' Hne')
    as (dist & Hdist & _).
  exists dist. split; [done|].
  rewrite moved_keys_ratio_value by done.
  assert (moved_count r' old_mapping keys = default 0 (dist !! x)) as ->;
    [|done].
  rewrite (key_distribution_count keys r' dist x Hinv' Hne' Hdist).
  unfold moved_count. f_equal. apply filter_ext_in. intros k Hin.
  destruct (Hbase k Hin) as (a & Hold & Ha).
  assert (a ≠ x) as Hax.
  { intros ->.
    destruct (get_primary_node_returns k r Hinv
                (get_primary_node_registered k r x Hinv Ha))
      as (a' & Ha' & [vs Hvs]%elem_of_dom).
    congruence. }
  rewrite primary_is_true. unfold key_moved.
  destruct (add_node_primary_cases k x a r r' Hinv Hadd Ha) as [-> | ->];
    rewrite Hold.
  - rewrite bool_decide_false by (by intros []). split; [done|congruence].
  - rewrite bool_decide_true by congruence. done.
Qed.

Lemma moved_after_add_is_share_of_new_node_witness :
  ∃ dist : gmap string nat,
    key_distribution ["a"; "zz"] ringABC = Return dist
    ∧ moved_keys_ratio ["a"; "zz"] {[ "a" := "A"; "zz" := "A" ]} ringABC
      = Return (inject_Z (Z.of_nat (default 0%nat (dist !! "C")))
                / inject_Z (Z.of_nat (length ["a"; "zz"])))%Q.
Proof.
  apply (moved_after_add_is_share_of_new_node ["a"; "zz"]
           {[ "a" := "A"; "zz" := "A" ]} "C" ringAB ringABC).
  - apply reachable_ringAB.
  - vm_compute. reflexivity.
  - discriminate.
  - intros k Hk. exists "A".
    apply elem_of_cons in Hk as [->|Hk]; [by vm_compute|].
    apply elem_of_cons in Hk as [->|Hk]; [by vm_compute|].
    by apply elem_of_nil in Hk.
Defined.

(** ** Full replication *)

(** X12: when [replication_factor] is at least the number of registered
    nodes, every key is stored on every node: on a reachable ring with at
    least one node, [get_nodes_for_key] then returns each registered node
    exactly once. *)
Theorem get_nodes_for_key_all_nodes (key : string) (r : ring) :
  reachable r → node_to_vnodes r ≠ ∅ →
  size (node_to_vnodes r) ≤ replication_factor r →
  ∃ nodes : list string,
    get_nodes_for_key key r = Return nodes
    ∧ NoDup nodes
    ∧ list_to_set nodes = dom (node_to_vnodes r).
Proof.
  intros Hinv%reachable_ring_inv Hne Hrf.
  destruct (get_nodes_for_key_returns key r Hinv Hne)
    as (nodes & Hg & Hlen & Hnd & Hreg).
  exists nodes. split_and!; [done..|].
  apply set_subseteq_size_eq.
  - intros n Hn%elem_of_list_to_set. by apply Hreg.
  - rewrite size_list_to_set, size_dom by done. lia.
Qed.

Lemma get_nodes_for_key_all_nodes_witness :
  ∃ nodes : list string,
    get_nodes_for_key "zz" ringAB = Return nodes
    ∧ NoDup nodes
    ∧ list_to_set nodes = dom (node_to_vnodes ringAB).
Proof.
  apply (get_nodes_for_key_all_nodes "zz" ringAB).
  - apply reachable_ringAB.
  - intros Heq. apply (f_equal (λ m : gmap string (list Z), m !! "A")) in Heq.
    vm_compute in Heq. discriminate Heq.
  - vm_compute. lia.
Defined.

(** ** Positions are 64-bit values *)

Lemma iter_next_pos_range k (pos : Z) :
  (0 ≤ pos < 2 ^ 64)%Z → (0 ≤ Nat.iter k next_pos pos < 2 ^ 64)%Z.
Proof.
  intros Hpos. destruct k as [|k]; [done|].
  rewrite iter_next_pos. apply Z.mod_pos_bound. lia.
Qed.

Lemma add_node_new_range (x : string) (r r' : ring) :
  add_node x r = Done r' →
  (∀ s, 0 ≤ hash r s < 2 ^ 64)%Z →
  ∀ p, p ∈ positions r' → p ∈ positions r ∨ (0 ≤ p < 2 ^ 64)%Z.
Proof.
  unfold add_node. destruct (node_to_vnodes r !! x); [done|].
  destruct (add_node_loop _ _ _ _ _ _) as [[[ps v2n] vs]|] eqn:Hloop; [|done].
  intros [= <-] Hh p. simpl.
  apply add_node_loop_spec in Hloop as (new & _ & Hlen & _ & Hps & Hch).
  rewrite Hps. intros [?|[i Hi]%list_elem_of_lookup_1]; [by left|right].
  destruct (lookup_lt_is_Some_2 (seq 0 (replicas_per_node r)) i) as [idx Hidx];
    [rewrite <-Hlen; by eapply lookup_lt_Some|].
  destruct (Hch i idx p Hidx Hi) as (_ & _ & k & -> & _).
  by apply iter_next_pos_range.
Qed.

(** X13: with a hash function whose values are unsigned 64-bit integers,
    every position of a reachable ring is an unsigned 64-bit integer. *)
Theorem positions_are_uint64 (r : ring) :
  reachable r → (∀ s, 0 ≤ hash r s < 2 ^ 64)%Z →
  ∀ p, p ∈ positions r → (0 ≤ p < 2 ^ 64)%Z.
Proof.
  induction 1 as [rpn h rf r Hnew|x r r' Hr IH Hstep|x r r' Hr IH Hstep];
    intros Hh p Hp.
  - unfold new_ring in Hnew. destruct (0 <? rpn), (0 <? rf); simplify_eq/=.
    by apply elem_of_nil in Hp.
  - destruct (add_node x r) as [r1|e r1|] eqn:Hadd; simplify_eq/=.
    + destruct (add_node_done x r r' Hadd)
        as (_ & _ & _ & _ & _ & _ & _ & _ & _ & _ & Hhash & _).
      rewrite Hhash in Hh.
      destruct (add_node_new_range x r r' Hadd Hh p Hp); [by apply IH|done].
    + rewrite (add_node_failed _ _ _ _ Hadd) in *. by apply IH.
  - destruct (remove_node x r) as [r1|e r1|] eqn:Hrem; simplify_eq/=.
    + pose proof (reachable_ring_inv r Hr) as [(Hs & _) _ _ _].
      destruct (remove_node_done x r r' Hs Hrem)
        as (vs & _ & _ & _ & _ & Hps & _ & Hhash & _).
      rewrite Hhash in Hh. apply IH; [done|]. by apply Hps in Hp as [? _].
    + rewrite (remove_node_failed _ _ _ _ Hrem) in *. by apply IH.
Qed.

Lemma toy_hash_range (s : string) : (0 ≤ toy_hash s < 2 ^ 64)%Z.
Proof.
  unfold toy_hash.
  pose proof (Nat.mod_upper_bound (byte_sum s * 7) 32 ltac:(lia)). lia.
Defined.

Lemma positions_are_uint64_witness : (0 ≤ 28 < 2 ^ 64)%Z.
Proof.
  apply (positions_are_uint64 ringABC).
  - apply reachable_ringABC.
  - apply toy_hash_range.
  - apply (bool_decide_unpack _). vm_compute. exact I.
Defined.

(** ** The range of the default hash function *)

Lemma from_bytes_big_bound (bs : list Byte.byte) (acc : Z) (n : nat) :
  (0 ≤ acc < 256 ^ Z.of_nat n)%Z →
  (0 ≤ foldl (λ acc b, acc * 256 + Z.of_N (Byte.to_N b)) acc bs
   < 256 ^ Z.of_nat (n + length bs))%Z.
Proof.
  revert acc n. induction bs as [|b bs IH]; intros acc n Hacc; simpl.
  - by rewrite Nat.add_0_r.
  - replace (n + S (length bs)) with (S n + length bs) by lia.
    apply IH. pose proof (Byte.to_N_bounded b).
    rewrite Nat2Z.inj_succ, Z.pow_succ_r by lia. lia.
Qed.

(** X14: whatever digest the library returns, [default_hash] returns an
    unsigned 64-bit integer. *)
Theorem default_hash_is_uint64 (sha1_digest : list Byte.byte → list Byte.byte)
    (value : string) :
  (0 ≤ default_hash sha1_digest value < 2 ^ 64)%Z.
Proof.
  unfold default_hash, from_bytes_big.
  set (h := take 8 (sha1_digest (String.list_byte_of_string value))).
  assert (length h ≤ 8) as Hlen by (unfold h; rewrite length_take; lia).
  pose proof (from_bytes_big_bound h 0 0 ltac:(simpl; lia)) as Hb.
  simpl in Hb. split; [lia|].
  eapply Z.lt_le_trans; [apply Hb|].
  change (2 ^ 64)%Z with (256 ^ 8)%Z.
  apply Z.pow_le_mono_r; lia.
Qed.

Example default_hash_bytes :
  default_hash (λ _, [Byte.x01; Byte.x02; Byte.x03; Byte.x04; Byte.x05;
                      Byte.x06; Byte.x07; Byte.x08; Byte.x09; Byte.x0a]) "k"
  = 0x0102030405060708%Z.
Proof. vm_compute. done. Qed.

(** ** Sizes *)

Lemma reachable_vnodes_NoDup (r : ring) :
  reachable r → ∀ n vs, node_to_vnodes r !! n = Some vs → NoDup vs.
Proof.
  induction 1 as [rpn h rf r Hnew|x r r' Hr IH Hstep|x r r' Hr IH Hstep];
    intros n vs Hn.
  - unfold new_ring in Hnew. destruct (0 <? rpn), (0 <? rf); simplify_eq/=.
  - destruct (add_node x r) as [r1|e r1|] eqn:Hadd; simplify_eq/=.
    + destruct (add_node_done x r r' Hadd) as (new & _ & Hn2v & _ & Hnd & _).
      rewrite Hn2v in Hn. apply lookup_insert_Some in Hn as [[_ <-]|[_ Hn]];
        [done|by eapply IH].
    + rewrite (add_node_failed _ _ _ _ Hadd) in *. by eapply IH.
  - destruct (remove_node x r) as [r1|e r1|] eqn:Hrem; simplify_eq/=.
    + pose proof (reachable_ring_inv r Hr) as [(Hs & _) _ _ _].
      destruct (remove_node_done x r r' Hs Hrem) as (vs' & _ & Hn2v & _).
      rewrite Hn2v in Hn. apply lookup_delete_Some in Hn as [_ Hn].
      by eapply IH.
    + rewrite (remove_node_failed _ _ _ _ Hrem) in *. by eapply IH.
Qed.

Lemma removed_length (ps ps' vs : list Z) :
  StronglySorted Z.lt ps → StronglySorted Z.lt ps' → NoDup vs →
  (∀ p, p ∈ vs → p ∈ ps) → (∀ p, p ∈ ps' ↔ p ∈ ps ∧ p ∉ vs) →
  length ps = length vs + length ps'.
Proof.
  intros Hs Hs' Hnd Hsub Hps.
  rewrite <-length_app. apply Permutation_length.
  apply NoDup_Permutation; [by apply sorted_lt_NoDup| |].
  - apply NoDup_app. split_and!; [done| |by apply sorted_lt_NoDup].
    intros p Hp [_ ?]%Hps. done.
  - intros p. rewrite elem_of_app, Hps.
    destruct (decide (p ∈ vs)) as [Hin|Hin].
    + split; [by left|]. intros _. by apply Hsub.
    + split; [by right|]. by intros [?|[? _]].
Qed.

(** X15: on a reachable ring [positions] holds [replicas_per_node] positions
    per registered node, and [vnode_to_node] has one entry per position. *)
Theorem ring_sizes (r : ring) :
  reachable r →
  length (positions r) = replicas_per_node r * size (node_to_vnodes r)
  ∧ size (vnode_to_node r) = length (positions r).
Proof.
  intros Hr. split.
  - induction Hr as [rpn h rf r Hnew|x r r' Hr IH Hstep|x r r' Hr IH Hstep].
    + unfold new_ring in Hnew. destruct (0 <? rpn), (0 <? rf); simplify_eq/=.
      rewrite map_size_empty. lia.
    + destruct (add_node x r) as [r1|e r1|] eqn:Hadd; simplify_eq/=.
      * destruct (add_node_done x r r' Hadd)
          as (new & Hx & Hn2v & _ & _ & _ & _ & _ & Hlen & Hrpn & _).
        rewrite Hlen, Hn2v, Hrpn, map_size_insert_None, IH by done. lia.
      * by rewrite (add_node_failed _ _ _ _ Hadd).
    + destruct (remove_node x r) as [r1|e r1|] eqn:Hrem; simplify_eq/=.
      * pose proof (reachable_ring_inv r Hr) as [(Hs & Hkeys & Hown) Hvs _ _].
        destruct (remove_node_done x r r' Hs Hrem)
          as (vs & Hx & Hn2v & _ & Hs' & Hps & Hrpn & _).
        pose proof (removed_length (positions r) (positions r') vs Hs Hs'
                      (reachable_vnodes_NoDup r Hr x vs Hx)) as Hlen.
        rewrite Hlen in IH; [|intros p Hp; apply Hkeys|done].
        2: { exists x. apply Hown. eauto. }
        rewrite (Hvs x vs Hx) in IH.
        rewrite Hn2v, Hrpn, map_size_delete_Some by eauto.
        assert (size (node_to_vnodes r) ≠ 0)
          by (apply map_size_non_empty_iff; intros Hemp;
              by rewrite Hemp, lookup_empty in Hx).
        nia.
      * by rewrite (remove_node_failed _ _ _ _ Hrem).
  - pose proof (reachable_ring_inv r Hr) as [(Hs & Hkeys & _) _ _ _].
    rewrite <-size_dom, <-(size_list_to_set (C := gset Z) (positions r))
      by by apply sorted_lt_NoDup.
    f_equal. apply set_eq. intros p.
    by rewrite elem_of_dom, elem_of_list_to_set, Hkeys.
Qed.

Lemma ring_sizes_witness :
  length (positions ringAC)
  = replicas_per_node ringAC * size (node_to_vnodes ringAC)
  ∧ size (vnode_to_node ringAC) = length (positions ringAC).
Proof.
  apply (ring_sizes ringAC).
  apply (reachable_remove_node "B" ringABC); [apply reachable_ringABC|].
  vm_compute. reflexivity.
Defined.

(** ** Placement without collisions *)

(** X16: when the hashes of the replica keys [x#0], [x#1], ... are free and
    pairwise different, a returning [add_node x] places the replicas exactly
    at these hashes, in replica order. *)
Theorem add_node_without_collision (x : string) (r r' : ring) :
  add_node x r = Done r' →
  (∀ i, i < replicas_per_node r →
     vnode_to_node r !! hash r (vnode_key x i) = None) →
  (∀ i j, i < j < replicas_per_node r →
     hash r (vnode_key x i) ≠ hash r (vnode_key x j)) →
  node_to_vnodes r' !! x
  = Some ((λ i, hash r (vnode_key x i)) <$> seq 0 (replicas_per_node r)).
Proof.
  unfold add_node. destruct (node_to_vnodes r !! x); [done|].
  destruct (add_node_loop _ _ _ _ _ _) as [[[ps v2n] vs]|] eqn:Hloop; [|done].
  intros [= <-] Hfree Hdiff. simpl. rewrite lookup_insert_eq. f_equal.
  apply add_node_loop_spec in Hloop as (new & -> & Hlen & _ & _ & Hch).
  rewrite length_seq in Hlen. simpl.
  assert (∀ i p, new !! i = Some p → p = hash r (vnode_key x i)) as Hat.
  { intros i. induction i as [i IH] using lt_wf_ind. intros p Hi.
    pose proof (lookup_lt_Some _ _ _ Hi) as Hlt.
    destruct (Hch i i p) as (_ & _ & k & -> & Hocc);
      [apply lookup_seq; lia|done|].
    destruct k as [|k]; [done|exfalso].
    destruct (Hocc 0 ltac:(lia)) as [[v Hv]|Hin]; simpl in *.
    - rewrite Hfree in Hv by lia. done.
    - apply list_elem_of_lookup_1 in Hin as [i' Hi'].
      apply lookup_take_Some in Hi' as [Hi' Hlt'].
      apply (Hdiff i' i); [lia|]. symmetry. by apply IH. }
  apply list_eq. intros i. rewrite list_lookup_fmap.
  destruct (decide (i < replicas_per_node r)) as [Hlt|Hge].
  - rewrite lookup_seq_lt by done. simpl.
    destruct (lookup_lt_is_Some_2 new i) as [p Hp]; [lia|].
    by rewrite Hp, (Hat i p Hp).
  - rewrite lookup_seq_ge by lia. simpl. apply lookup_ge_None. lia.
Qed.

Lemma add_node_without_collision_witness :
  node_to_vnodes ringA !! "A"
  = Some ((λ i, hash ring0 (vnode_key "A" i)) <$> seq 0 (replicas_per_node ring0)).
Proof.
  apply (add_node_without_collision "A" ring0 ringA).
  - vm_compute. reflexivity.
  - intros i Hi. apply lookup_empty.
  - intros i j Hij. change (replicas_per_node ring0) with 3 in Hij.
    assert ((i = 0 ∧ j = 1) ∨ (i = 0 ∧ j = 2) ∨ (i = 1 ∧ j = 2))
      as [[-> ->]|[[-> ->]|[-> ->]]] by lia; vm_compute; discriminate.
Defined.

(** ** Queries on a ring without positions *)

(** X17: on any ring state without positions, every placement query raises
    the EmptyRing condition as soon as it has a key to place
    ([get_nodes_for_key], and the three helpers on a non-empty key list),
    while on an empty key list the helpers return an empty result. *)
Theorem empty_ring_queries (key : string) (keys : list string)
    (old_mapping : gmap string string) (r : ring) :
  positions r = [] →
  get_nodes_for_key key r = Raise EmptyRing
  ∧ assign_keys (key :: keys) r = Raise EmptyRing
  ∧ key_distribution (key :: keys) r = Raise EmptyRing
  ∧ moved_keys_ratio (key :: keys) old_mapping r = Raise EmptyRing
  ∧ assign_keys [] r = Return ∅
  ∧ key_distribution [] r = Return ∅.
Proof.
  intros Hp.
  assert (get_nodes_for_key key r = Raise EmptyRing) as Hg
    by (unfold get_nodes_for_key; by rewrite Hp).
  assert (get_primary_node key r = Raise EmptyRing) as Hprim
    by (unfold get_primary_node; by rewrite Hg).
  split_and!; [done| | | |done..].
  - unfold assign_keys. cbn [assign_keys_loop]. by rewrite Hprim.
  - unfold key_distribution. cbn [key_distribution_loop]. by rewrite Hprim.
  - unfold moved_keys_ratio. cbn [moved_keys_loop]. by rewrite Hprim.
Qed.

Lemma empty_ring_queries_witness :
  get_nodes_for_key "a" ring0 = Raise EmptyRing
  ∧ assign_keys ["a"; "b"] ring0 = Raise EmptyRing
  ∧ key_distribution ["a"; "b"] ring0 = Raise EmptyRing
  ∧ moved_keys_ratio ["a"; "b"] ∅ ring0 = Raise EmptyRing
  ∧ assign_keys [] ring0 = Return ∅
  ∧ key_distribution [] ring0 = Return ∅.
Proof. apply (empty_ring_queries "a" ["b"] ∅ ring0). reflexivity. Defined.

(** ** The order of the replicas *)

Lemma first_occurrences_elem_of (seen : gset string) (l : list string) x :
  x ∈ first_occurrences seen l ↔ x ∈ l ∧ x ∉ seen.
Proof.
  revert seen. induction l as [|y l IH]; intros seen; simpl.
  - rewrite elem_of_nil. tauto.
  - case_decide as Hy.
    + rewrite IH, elem_of_cons. split; [tauto|].
      intros [[->|?] ?]; [done|tauto].
    + rewrite !elem_of_cons, IH, not_elem_of_union, elem_of_singleton.
      destruct (decide (x = y)) as [->|]; tauto.
Qed.

Lemma first_occurrences_NoDup (seen : gset string) (l : list string) :
  NoDup (first_occurrences seen l).
Proof.
  revert seen. induction l as [|y l IH]; intros seen; simpl; [constructor|].
  case_decide; [done|]. constructor; [|done].
  rewrite first_occurrences_elem_of, not_elem_of_union, elem_of_singleton.
  tauto.
Qed.

Lemma lookup_from_index (ps : list Z) (idx d : nat) :
  idx < length ps → d < length ps →
  (drop idx ps ++ take idx ps) !! d = ps !! ((idx + d) `mod` length ps).
Proof.
  intros Hidx Hd. destruct (decide (idx + d < length ps)) as [Hlt|Hge].
  - rewrite lookup_app_l by (rewrite length_drop; lia).
    by rewrite lookup_drop, Nat.mod_small.
  - rewrite lookup_app_r by (rewrite length_drop; lia).
    rewrite length_drop, lookup_take_lt by lia.
    replace (idx + d) with (d - (length ps - idx) + 1 * length ps) by lia.
    rewrite Nat.Div0.mod_add, Nat.mod_small by lia. done.
Qed.

(** The walk over the owners [rest] of the positions still ahead, when the
    nodes collected at the end of them are all the registered nodes. *)
Lemma walk_collects (r : ring) (rest : list string) (n idx : nat)
    (chosen : list string) (seen : gset string) :
  idx < length (positions r) → length rest ≤ n →
  seen = list_to_set chosen → NoDup chosen →
  length chosen ≤ replication_factor r →
  length (chosen ++ first_occurrences seen rest) = size (node_to_vnodes r) →
  (∀ d o, rest !! d = Some o →
     ∃ pos, positions r !! ((idx + d) `mod` length (positions r)) = Some pos
       ∧ vnode_to_node r !! pos = Some o) →
  walk n r idx chosen seen
  = Return (take (replication_factor r)
              (chosen ++ first_occurrences seen rest)).
Proof.
  revert n idx chosen seen.
  induction rest as [|o rest IH];
    intros n idx chosen seen Hidx Hn -> Hnd Hrf Hfull Hown.
  - simpl in *. rewrite app_nil_r in *. rewrite take_ge by done.
    apply walk_exit. rewrite size_list_to_set by done. lia.
  - destruct (decide (length chosen < replication_factor r
                      ∧ size (list_to_set (C := gset string) chosen)
                        < size (node_to_vnodes r))) as [Hc|Hc].
    2: { rewrite walk_exit by done. rewrite size_list_to_set in Hc by done.
         rewrite length_app in Hfull.
         destruct (decide (length chosen < replication_factor r)).
         - destruct (first_occurrences _ (o :: rest)); [|simpl in Hfull; lia].
           rewrite app_nil_r, take_ge by done. done.
         - by rewrite take_app_le, take_ge by lia. }
    destruct n as [|n]; [simpl in Hn; lia|]. cbn [walk].
    rewrite decide_True by done.
    destruct (Hown 0 o eq_refl) as (pos & Hpos & Ho).
    rewrite Nat.add_0_r, Nat.mod_small in Hpos by done.
    rewrite Hpos, Ho.
    assert (0 < length (positions r)) as HL by lia.
    assert (∀ d o', rest !! d = Some o' →
      ∃ pos', positions r !! (((idx + 1) `mod` length (positions r) + d)
                               `mod` length (positions r)) = Some pos'
        ∧ vnode_to_node r !! pos' = Some o') as Hown'.
    { intros d o' Hd. rewrite walk_index_step by done.
      by apply (Hown (S d)). }
    cbn [first_occurrences] in *. case_decide as Hseen.
    + apply IH; try done; [by apply Nat.mod_upper_bound; lia|simpl in Hn; lia].
    + rewrite elem_of_list_to_set in Hseen.
      rewrite (IH n _ (chosen ++ [o]) ({[o]} ∪ list_to_set chosen)).
      * by rewrite <-app_assoc.
      * apply Nat.mod_upper_bound. lia.
      * simpl in Hn. lia.
      * rewrite list_to_set_app_L. simpl.
        by rewrite (right_id_L ∅ (∪)), (comm_L (∪)).
      * apply NoDup_app. split_and!; [done| |apply NoDup_singleton].
        intros y Hy ->%list_elem_of_singleton. done.
      * rewrite length_app. simpl. lia.
      * by rewrite <-app_assoc.
      * done.
Qed.

(** X18: the replicas of a key are the owners met walking clockwise from
    the key's successor position, each node at its first occurrence, cut at
    [replication_factor]: on a reachable ring with at least one node, with
    [idx] the index [_find_vnode_index] returns and [owners] the owners of
    [positions[idx:] + positions[:idx]], [get_nodes_for_key] returns the
    first [replication_factor] entries of [owners] without repetitions. *)
Theorem get_nodes_for_key_walk_order (key : string) (r : ring) :
  reachable r → node_to_vnodes r ≠ ∅ →
  ∃ (idx : nat) (owners : list string),
    _find_vnode_index (hash r key) r = Return idx
    ∧ Forall2 (λ p o, vnode_to_node r !! p = Some o)
        (drop idx (positions r) ++ take idx (positions r)) owners
    ∧ get_nodes_for_key key r
      = Return (take (replication_factor r) (first_occurrences ∅ owners)).
Proof.
  intros Hinv%reachable_ring_inv Hne.
  assert (positions r ≠ []) as Hps by by apply ring_inv_nonempty.
  destruct (find_vnode_index_lt r (hash r key) Hinv Hps) as (idx & Hfind & Hidx).
  set (walked := drop idx (positions r) ++ take idx (positions r)).
  assert (length walked = length (positions r)) as Hwl.
  { unfold walked. rewrite length_app, length_drop, length_take. lia. }
  assert (∀ p, p ∈ walked ↔ p ∈ positions r) as Hmem.
  { intros p. unfold walked.
    by rewrite elem_of_app, (comm (∨)), <-elem_of_app, take_drop. }
  assert (∃ owners : list string,
            Forall2 (λ p o, vnode_to_node r !! p = Some o) walked owners)
    as [owners Howners].
  { assert (Forall (λ p, ∃ o : string, vnode_to_node r !! p = Some o) walked)
      as Hall.
    { apply Forall_forall. intros p Hp. destruct Hinv as [(_ & Hkeys & _) _ _ _].
      by apply Hkeys, Hmem. }
    clear -Hall. induction Hall as [|p ps [o Ho] _ [os IH]].
    - by exists [].
    - exists (o :: os). by constructor. }
  exists idx, owners. split_and!; [done|done|].
  unfold get_nodes_for_key. rewrite decide_False, Hfind by done.
  cbn [mbind result_bind].
  pose proof (Forall2_length _ _ _ Howners) as Hlen.
  assert (size (node_to_vnodes r) ≠ 0) by by apply map_size_non_empty_iff.
  rewrite (walk_collects r owners);
    [done|done| |done|constructor|simpl; lia| |].
  - rewrite <-Hlen, Hwl.
    assert (1 ≤ size (node_to_vnodes r)) by lia. nia.
  - simpl. rewrite <-size_dom,
      <-(size_list_to_set (C := gset string) (first_occurrences ∅ owners))
      by apply first_occurrences_NoDup.
    f_equal. apply set_eq. intros n.
    rewrite elem_of_list_to_set, first_occurrences_elem_of. split.
    + intros [[d Hd]%list_elem_of_lookup_1 _].
      destruct (Forall2_lookup_r _ _ _ _ _ Howners Hd) as (p & Hp & Hn).
      destruct Hinv as [(_ & _ & Hown) _ _ _].
      apply Hown in Hn as (vs & Hvs & _). apply elem_of_dom. eauto.
    + intros Hn. split; [|apply not_elem_of_empty].
      destruct (ring_inv_registered_owner r n Hinv Hn) as (j & p & Hj & Hp).
      assert (p ∈ walked) as [d Hd]%list_elem_of_lookup_1.
      { apply Hmem. by eapply list_elem_of_lookup_2. }
      destruct (Forall2_lookup_l _ _ _ _ _ Howners Hd) as (o & Ho & Hpo).
      assert (o = n) as -> by congruence.
      by eapply list_elem_of_lookup_2.
  - intros d o Hd.
    destruct (Forall2_lookup_r _ _ _ _ _ Howners Hd) as (p & Hp & Ho).
    exists p. split; [|done].
    pose proof (lookup_lt_Some _ _ _ Hp) as Hdl. rewrite Hwl in Hdl.
    unfold walked in Hp. by rewrite <-lookup_from_index.
Qed.

Lemma get_nodes_for_key_walk_order_witness :
  ∃ (idx : nat) (owners : list string),
    _find_vnode_index (hash ringABC "zz") ringABC = Return idx
    ∧ Forall2 (λ p o, vnode_to_node ringABC !! p = Some o)
        (drop idx (positions ringABC) ++ take idx (positions ringABC)) owners
    ∧ get_nodes_for_key "zz" ringABC
      = Return (take (replication_factor ringABC)
                  (first_occurrences ∅ owners)).
Proof.
  apply (get_nodes_for_key_walk_order "zz" ringABC).
  - apply reachable_ringABC.
  - apply ringABC_registered.
Defined.

Example get_nodes_for_key_order :
  _find_vnode_index (hash ringABC "zz") ringABC = Return 3
  ∧ drop 3 (positions ringABC) ++ take 3 (positions ringABC)
    = [12; 19; 20; 26; 27; 28; 1; 2; 8]%Z
  ∧ first_occurrences ∅ ["A"; "A"; "B"; "A"; "B"; "C"; "B"; "C"; "C"]
    = ["A"; "B"; "C"]
  ∧ get_nodes_for_key "zz" ringABC = Return ["A"; "B"].
Proof. vm_compute. done. Qed.

(** ** After a removal *)

(** X19: a removed node is returned for no key: on a reachable ring, after
    a returning [remove_node x], no list [get_nodes_for_key] returns
    contains [x]. *)
Theorem removed_node_not_returned (key x : string) (r r' : ring)
    (nodes : list string) :
  reachable r → remove_node x r = Done r' →
  get_nodes_for_key key r' = Return nodes → x ∉ nodes.
Proof.
  intros Hinv%reachable_ring_inv Hrem Hg.
  pose proof (ring_inv_remove_node x r r' Hinv Hrem) as Hinv'.
  pose proof Hinv as [(Hsorted & _) _ _ _].
  destruct (remove_node_done x r r' Hsorted Hrem) as (vs & _ & Hn2v & _).
  assert (node_to_vnodes r' ≠ ∅) as Hne'.
  { apply ring_inv_nonempty; [done|]. intros Hemp.
    unfold get_nodes_for_key in Hg. by rewrite Hemp in Hg. }
  destruct (get_nodes_for_key_returns key r' Hinv' Hne')
    as (nodes' & Hg' & _ & _ & Hreg).
  assert (nodes' = nodes) as -> by congruence.
  intros Hx%Hreg. rewrite Hn2v, dom_delete_L in Hx.
  apply elem_of_difference in Hx as [_ Hx]. by apply Hx, elem_of_singleton.
Qed.

Lemma removed_node_not_returned_witness : "B" ∉ ["A"; "C"].
Proof.
  apply (removed_node_not_returned "zz" "B" ringABC ringAC ["A"; "C"]).
  - apply reachable_ringABC.
  - vm_compute. reflexivity.
  - vm_compute. reflexivity.
Defined.

(** X20: after a node is removed, the keys that count as moved against the
    baseline taken before are the keys the removed node had: on a reachable
    ring, with [old_mapping] mapping every key to its primary node before a
    returning [remove_node x] that leaves at least one node,
    [moved_keys_ratio] on the new ring returns the count [key_distribution]
    gave [x] before, divided by the number of keys. *)
Theorem moved_after_remove_is_share_of_removed_node (keys : list string)
    (old_mapping : gmap string string) (x : string) (r r' : ring) :
  reachable r → remove_node x r = Done r' → node_to_vnodes r' ≠ ∅ →
  keys ≠ [] →
  (∀ k, k ∈ keys →
     ∃ n, old_mapping !! k = Some n ∧ get_primary_node k r = Return n) →
  ∃ dist : gmap string nat,
    key_distribution keys r = Return dist
    ∧ moved_keys_ratio keys old_mapping r'
      = Return (inject_Z (Z.of_nat (default 0%nat (dist !! x)))
                / inject_Z (Z.of_nat (length keys)))%Q.
Proof.
  intros Hinv%reachable_ring_inv Hrem Hne' Hk Hbase.
  pose proof (ring_inv_remove_node x r r' Hinv Hrem) as Hinv'.
  pose proof Hinv as [(Hsorted & _) _ _ _].
  destruct (remove_node_done x r r' Hsorted Hrem) as (vs & Hx & Hn2v & _).
  assert (node_to_vnodes r ≠ ∅) as Hne
    by (intros Hemp; by rewrite Hemp, lookup_empty in Hx).
  destruct (key_distribution_loop_total r keys ∅ Hinv Hne)
    as (dist & Hdist & _).
  exists dist. split; [done|].
  rewrite moved_keys_ratio_value by done.
  assert (moved_count r' old_mapping keys = default 0 (dist !! x)) as ->;
    [|done].
  rewrite (key_distribution_count keys r dist x Hinv Hne Hdist).
  unfold moved_count. f_equal. apply filter_ext_in. intros k Hin.
  destruct (Hbase k Hin) as (a & Hold & Ha).
  rewrite primary_is_true, Ha. unfold key_moved.
  destruct (decide (a = x)) as [->|Hax].
  - destruct (get_primary_node_returns k r' Hinv' Hne') as (n' & -> & Hn').
    rewrite Hn2v, dom_delete_L in Hn'.
    apply elem_of_difference in Hn' as [_ Hn'%not_elem_of_singleton].
    rewrite Hold, bool_decide_true by congruence. done.
  - rewrite (remove_node_primary_kept k x a r r' Hinv Hrem Ha Hax), Hold.
    rewrite bool_decide_false by (by intros []). split; [done|congruence].
Qed.

Lemma moved_after_remove_is_share_of_removed_node_witness :
  ∃ dist : gmap string nat,
    key_distribution ["a"; "zz"; "B#2"] ringABC = Return dist
    ∧ moved_keys_ratio ["a"; "zz"; "B#2"]
        {[ "a" := "C"; "zz" := "A"; "B#2" := "B" ]} ringAC
      = Return (inject_Z (Z.of_nat (default 0%nat (dist !! "B")))
                / inject_Z (Z.of_nat (length ["a"; "zz"; "B#2"])))%Q.
Proof.
  apply (moved_after_remove_is_share_of_removed_node ["a"; "zz"; "B#2"]
           {[ "a" := "C"; "zz" := "A"; "B#2" := "B" ]} "B" ringABC ringAC).
  - apply reachable_ringABC.
  - vm_compute. reflexivity.
  - intros Heq. apply (f_equal (λ m : gmap string (list Z), m !! "A")) in Heq.
    vm_compute in Heq. discriminate Heq.
  - discriminate.
  - intros k Hk.
    apply elem_of_cons in Hk as [->|Hk]; [exists "C"; by vm_compute|].
    apply elem_of_cons in Hk as [->|Hk]; [exists "A"; by vm_compute|].
    apply elem_of_cons in Hk as [->|Hk]; [exists "B"; by vm_compute|].
    by apply elem_of_nil in Hk.
Defined.
